(** * 2048-Tiny: the board engine of [main.py], embedded and verified

    The development follows [src/main.py]: the class [Board] with its methods
    [__init__], [move], [has_moves], [restart] and [_spawn_random_tile].

    Modelling choices.
    - Python integers are unbounded: tile values and the score are [Z].
    - The grid is a [list (list Z)], as in the source.  Every subscript of
      the source is a partial lookup here: an [IndexError] is [None].
    - [random.Random] belongs to the Python library, not to the game: it is
      an interface ([RandomSource]) whose state is threaded explicitly.
      [rng.choice(seq)] is [seq[rng._randbelow(len(seq))]], and
      [rng.random()] returns a double, which is a rational number; the
      literal [0.10] is the double nearest to one tenth.
    - The direction is a string; [str.lower] acts on the ASCII letters. *)

From Stdlib Require Import ZArith QArith String Ascii Lia Sorted.
From stdpp Require Import base option list strings.

Local Close Scope Q_scope.
Local Open Scope string_scope.
Local Open Scope Z_scope.
Local Open Scope nat_scope.
Local Open Scope list_scope.

(** ** The random source *)

Class RandomSource (R : Type) := {
  (** [random.Random(seed)] *)
  from_seed : Z → R;
  (** [rng._randbelow(n)]: an index below [n], and the next state *)
  randbelow : R → nat → nat * R;
  (** [rng.random()]: a double of [[0,1)], and the next state *)
  random : R → Q * R;
  randbelow_lt : ∀ s n, 0 < n → (randbelow s n).1 < n
}.

(** The value of the floating-point literal [0.10]. *)
Definition p10 : Q := (3602879701896397 # 36028797018963968)%Q.

(** [x < 0.10] on doubles is the comparison of the rationals they denote. *)
Definition float_lt (x y : Q) : bool :=
  match (x ?= y)%Q with Lt => true | _ => false end.

(** ** Data *)

Definition SIZE : nat := 4.

Record MoveResult := mkMoveResult { moved : bool; score_gain : Z }.

Record Board (R : Type) := mkBoard {
  rng : R;
  grid : list (list Z);
  score : Z
}.
Arguments mkBoard {R} _ _ _.
Arguments rng {R} _.
Arguments grid {R} _.
Arguments score {R} _.

(** ** Subscripts *)

(** [g[r][c]] for non-negative [r] and [c]. *)
Definition cell (g : list (list Z)) (r c : nat) : option Z :=
  row ← g !! r; row !! c.

(** Python's index normalisation: a negative index counts from the end. *)
Definition py_index (len : nat) (i : Z) : option nat :=
  if decide (0 ≤ i < Z.of_nat len)%Z then Some (Z.to_nat i)
  else if decide (- Z.of_nat len ≤ i < 0)%Z then Some (Z.to_nat (Z.of_nat len + i))
  else None.

(** [g[idx] = vals] *)
Definition set_row (g : list (list Z)) (idx : nat) (vals : list Z)
  : option (list (list Z)) :=
  if decide (idx < length g) then Some (<[idx := vals]> g) else None.

(** [g[r][c] = v], with [r] any integer *)
Definition set_cell (g : list (list Z)) (r : Z) (c : nat) (v : Z)
  : option (list (list Z)) :=
  r' ← py_index (length g) r;
  row ← g !! r';
  if decide (c < length row) then Some (<[r' := <[c := v]> row]> g) else None.

(** [range(SIZE)] crossed with itself, in the order of the two nested loops. *)
Definition all_cells : list (nat * nat) :=
  r ← seq 0 SIZE; c ← seq 0 SIZE; [(r, c)].

(** ** [Board.move] *)

Definition lower_ascii (a : ascii) : ascii :=
  let n := nat_of_ascii a in
  if decide (65 ≤ n ≤ 90)%nat then ascii_of_nat (n + 32) else a.

Fixpoint lower (s : string) : string :=
  match s with
  | EmptyString => EmptyString
  | String a s' => String (lower_ascii a) (lower s')
  end.

(** The helper [line] of [move]: the line [idx] read in move order. *)
Definition line (direction : string) (g : list (list Z)) (idx : nat)
  : option (list Z) :=
  if decide (direction = "a") then g !! idx
  else if decide (direction = "d") then reverse <$> g !! idx
  else if decide (direction = "w") then
    mapM (λ r, cell g r idx) (seq 0 SIZE)
  else mapM (λ r, cell g r idx) (reverse (seq 0 SIZE)).

(** [for r, v in enumerate(vals): g[row_of r][idx] = v], from position [r]. *)
Fixpoint write_col (row_of : nat → Z) (g : list (list Z)) (idx : nat)
    (r : nat) (vals : list Z) : option (list (list Z)) :=
  match vals with
  | [] => Some g
  | v :: vals' =>
      g' ← set_cell g (row_of r) idx v;
      write_col row_of g' idx (S r) vals'
  end.

(** The helper [write_line] of [move]. *)
Definition write_line (direction : string) (g : list (list Z)) (idx : nat)
    (vals : list Z) : option (list (list Z)) :=
  if decide (direction = "a") then set_row g idx vals
  else if decide (direction = "d") then set_row g idx (reverse vals)
  else if decide (direction = "w") then
    write_col (λ r, Z.of_nat r) g idx 0 vals
  else write_col (λ r, (Z.of_nat SIZE - 1 - Z.of_nat r)%Z) g idx 0 vals.

(** [compact = [x for x in arr if x != 0]] *)
Definition compact (arr : list Z) : list Z := filter (λ x, x ≠ 0%Z) arr.

(** The [while j < len(compact)] loop.  [rest] is [compact[j:]]; [merged]
    and [score_gain] are the two variables the loop updates. *)
Fixpoint merge_scan (rest merged : list Z) (score_gain : Z) : list Z * Z :=
  match rest with
  | [] => (merged, score_gain)
  | x :: tl =>
      match tl with
      | y :: tl' =>
          if decide (x = y) then
            let val := (x * 2)%Z in
            merge_scan tl' (merged ++ [val]) (score_gain + val)%Z
          else merge_scan tl (merged ++ [x]) score_gain
      | [] => merge_scan tl (merged ++ [x]) score_gain
      end
  end.

(** [merged += [0] * (SIZE - len(merged))]: a negative count repeats nothing. *)
Definition pad (merged : list Z) : list Z :=
  merged ++ replicate (SIZE - length merged) 0%Z.

(** One iteration of [for i in range(SIZE)], on the grid and [score_gain]. *)
Definition move_line (direction : string) (st : list (list Z) * Z) (i : nat)
  : option (list (list Z) * Z) :=
  arr ← line direction st.1 i;
  let ms := merge_scan (compact arr) [] st.2 in
  g' ← write_line direction st.1 i (pad ms.1);
  Some (g', ms.2).

Fixpoint for_each {S : Type} (body : S → nat → option S) (st : S)
    (idxs : list nat) : option S :=
  match idxs with
  | [] => Some st
  | i :: idxs' => st' ← body st i; for_each body st' idxs'
  end.

(** Lines 93 to 137: the slide and merge of all lines, before any spawn.
    [direction] is already lower case and one of the four letters. *)
Definition slide (direction : string) (g : list (list Z))
  : option (list (list Z) * Z) :=
  for_each (move_line direction) (g, 0%Z) (seq 0 SIZE).

(** ** [Board._spawn_random_tile] *)

(** The list comprehension for [empties], over the cells still to visit. *)
Fixpoint empties_of (g : list (list Z)) (cells : list (nat * nat))
  : option (list (nat * nat)) :=
  match cells with
  | [] => Some []
  | rc :: cells' =>
      v ← cell g rc.1 rc.2;
      es ← empties_of g cells';
      Some (if decide (v = 0%Z) then rc :: es else es)
  end.

Definition empties (g : list (list Z)) : option (list (nat * nat)) :=
  empties_of g all_cells.

Section Engine.
Context {R : Type} `{RandomSource R}.

Definition _spawn_random_tile (b : Board R) : option (Board R) :=
  es ← empties (grid b);
  match es with
  | [] => Some b
  | _ :: _ =>
      let k := randbelow (rng b) (length es) in
      rc ← es !! k.1;
      let x := random k.2 in
      g' ← set_cell (grid b) (Z.of_nat rc.1) rc.2
              (if float_lt x.1 p10 then 4%Z else 2%Z);
      Some (mkBoard x.2 g' (score b))
  end.

Definition move (b : Board R) (direction : string)
  : option (Board R * MoveResult) :=
  let direction := lower direction in
  if decide (direction ∉ ["w"; "a"; "s"; "d"]) then
    Some (b, mkMoveResult false 0)
  else
    let before := grid b in
    st ← slide direction (grid b);
    let moved := bool_decide (st.1 ≠ before) in
    if moved then
      b' ← _spawn_random_tile (mkBoard (rng b) st.1 (score b + st.2)%Z);
      Some (b', mkMoveResult moved st.2)
    else Some (mkBoard (rng b) st.1 (score b), mkMoveResult moved st.2).

(** ** [Board.__init__] and [Board.restart] *)

Definition empty_grid : list (list Z) := replicate SIZE (replicate SIZE 0%Z).

Definition Board_init (rng0 : R) : option (Board R) :=
  b ← _spawn_random_tile (mkBoard rng0 empty_grid 0%Z);
  _spawn_random_tile b.

Definition restart (b : Board R) : option (Board R) :=
  b1 ← _spawn_random_tile (mkBoard (rng b) empty_grid 0%Z);
  _spawn_random_tile b1.

(** ** [Board.has_moves] *)

(** The two nested loops of [has_moves], over the cells still to visit. *)
Fixpoint scan_adjacent (g : list (list Z)) (cells : list (nat * nat))
  : option bool :=
  match cells with
  | [] => Some false
  | rc :: cells' =>
      v ← cell g rc.1 rc.2;
      down ← (if decide (rc.1 + 1 < SIZE)
              then w ← cell g (rc.1 + 1) rc.2; Some (bool_decide (w = v))
              else Some false);
      if down : bool then Some true
      else
        right ← (if decide (rc.2 + 1 < SIZE)
                 then w ← cell g rc.1 (rc.2 + 1); Some (bool_decide (w = v))
                 else Some false);
        if right : bool then Some true else scan_adjacent g cells'
  end.

Definition has_moves (b : Board R) : option bool :=
  if existsb (λ row, bool_decide (0%Z ∈ row)) (grid b) then Some true
  else scan_adjacent (grid b) all_cells.

End Engine.

(** * Vocabulary of the properties *)

(** ** One line *)

(** What the loop appends to [merged] and adds to [score_gain]. *)
Definition merged_of (c : list Z) : list Z := (merge_scan c [] 0%Z).1.
Definition gain_of (c : list Z) : Z := (merge_scan c [] 0%Z).2.

(** Steps 2 to 4 of [move] on one extracted line, and the score it earns. *)
Definition process (arr : list Z) : list Z := pad (merged_of (compact arr)).
Definition line_gain (arr : list Z) : Z := gain_of (compact arr).

(** The merge events of a compacted line, in the words of the specification:
    walking the line from its head, two equal neighbours merge into one tile
    of twice their value, which is not looked at again; the event is
    recorded by the value of the merged tile. *)
Fixpoint merge_events (c : list Z) : list Z :=
  match c with
  | [] => []
  | x :: tl =>
      match tl with
      | y :: tl' =>
          if decide (x = y) then (2 * x)%Z :: merge_events tl'
          else merge_events tl
      | [] => []
      end
  end.

Definition sum_Z (l : list Z) : Z := foldr Z.add 0%Z l.

(** A line is merged in a single pass when the output is cut from the input
    block by block: a block is one tile, copied, or two equal neighbours,
    replaced by one tile of twice the value.  No output tile stems from
    more than two input tiles. *)
Inductive single_pass : list Z → list Z → Prop :=
  | sp_done : single_pass [] []
  | sp_copy x c m : single_pass c m → single_pass (x :: c) (x :: m)
  | sp_pair x c m : single_pass c m → single_pass (x :: x :: c) ((x * 2)%Z :: m).

(** ** The grid *)

(** The shape [Board.__init__] builds: four rows of four cells. *)
Definition wf (g : list (list Z)) : Prop :=
  length g = SIZE ∧ Forall (λ row, length row = SIZE) g.

Definition column (g : list (list Z)) (c : nat) : list Z :=
  omap (λ row : list Z, row !! c) g.

Definition transpose (g : list (list Z)) : list (list Z) :=
  column g <$> seq 0 SIZE.

(** The four lines of a grid in move order, and the grid of four lines. *)
Definition lines (d : string) (g : list (list Z)) : list (list Z) :=
  if decide (d = "a") then g
  else if decide (d = "d") then reverse <$> g
  else if decide (d = "w") then transpose g
  else reverse <$> transpose g.

Definition unlines (d : string) (ls : list (list Z)) : list (list Z) :=
  if decide (d = "a") then ls
  else if decide (d = "d") then reverse <$> ls
  else if decide (d = "w") then transpose ls
  else transpose (reverse <$> ls).

(** The directions [move] recognises, once in lower case. *)
Definition directions : list string := ["w"; "a"; "s"; "d"].

(** A cell is empty or holds a power of two that is at least 2. *)
Definition power_tile (v : Z) : Prop := ∃ k : nat, v = (2 ^ Z.of_nat (S k))%Z.
Definition tile (v : Z) : Prop := v = 0%Z ∨ power_tile v.
Definition tiles (g : list (list Z)) : Prop := Forall (Forall tile) g.

(** The grid and the gain of the slide a call of [move] performs. *)
Definition slid_grid (d : string) (g : list (list Z)) : list (list Z) :=
  unlines d (process <$> lines d g).
Definition slid_gain (d : string) (g : list (list Z)) : Z :=
  sum_Z (line_gain <$> lines d g).

(** The condition of the specification, in its words: some cell is empty,
    or two cells next to each other in a row or in a column hold the same
    non-zero value. *)
Definition has_empty (g : list (list Z)) : Prop :=
  ∃ r c, cell g r c = Some 0%Z.

Definition adjacent (p q : nat * nat) : Prop :=
  (p.1 = q.1 ∧ (p.2 + 1 = q.2 ∨ q.2 + 1 = p.2)) ∨
  (p.2 = q.2 ∧ (p.1 + 1 = q.1 ∨ q.1 + 1 = p.1)).

Definition adjacent_equal (g : list (list Z)) : Prop :=
  ∃ p q v, adjacent p q ∧ v ≠ 0%Z ∧
           cell g p.1 p.2 = Some v ∧ cell g q.1 q.2 = Some v.

(** What the two loops of [has_moves] look for: a cell equal to the cell
    below it or to the cell on its right. *)
Definition equal_neighbour (g : list (list Z)) (cells : list (nat * nat)) : Prop :=
  ∃ r c v, (r, c) ∈ cells ∧ cell g r c = Some v ∧
           (cell g (r + 1) c = Some v ∨ cell g r (c + 1) = Some v).

(** The grid read mirrored horizontally: every row reversed. *)
Definition mirror (g : list (list Z)) : list (list Z) := reverse <$> g.

(** ** Calls, sessions and games *)

(** The two calls that change a board. *)
Inductive call : Type :=
  | Move (direction : string)
  | Restart.

(** The merge events of one call of [move] on the grid [g]: those of its
    four lines, and none for a direction that is not recognised. *)
Definition move_events (d : string) (g : list (list Z)) : list Z :=
  if decide (d ∈ directions)
  then concat ((λ l, merge_events (compact l)) <$> lines d g)
  else [].

Section Vocabulary.
Context {R : Type} `{RandomSource R}.

(** What one spawn draws from the source in state [s] when [n] cells are
    empty: the index of the chosen cell, the float, the value it selects,
    and the state the source is left in. *)
Definition spawn_index (s : R) (n : nat) : nat := (randbelow s n).1.
Definition spawn_draw (s : R) (n : nat) : Q := (random (randbelow s n).2).1.
Definition spawn_value (s : R) (n : nat) : Z :=
  if float_lt (spawn_draw s n) p10 then 4%Z else 2%Z.
Definition spawn_rng (s : R) (n : nat) : R := (random (randbelow s n).2).2.

(** The invariant of the board: a 4 by 4 grid of empty cells and tiles. *)
Definition invariant (b : Board R) : Prop := wf (grid b) ∧ tiles (grid b).

Definition step (b : Board R) (c : call) : option (Board R) :=
  match c with
  | Move d => fst <$> move b d
  | Restart => restart b
  end.

(** The boards a program can hold: built by [Board(rng)], then changed by
    calls of [move] and [restart]. *)
Inductive reachable : Board R → Prop :=
  | reach_init rng0 b : Board_init rng0 = Some b → reachable b
  | reach_step b c b' : reachable b → step b c = Some b' → reachable b'.

(** The boards after each call of a sequence. *)
Fixpoint run (b : Board R) (calls : list call) : option (list (Board R)) :=
  match calls with
  | [] => Some []
  | c :: calls' =>
      b' ← step b c; rest ← run b' calls'; Some (b' :: rest)
  end.

(** What a caller can read of a board. *)
Definition observe (b : Board R) : list (list Z) * Z := (grid b, score b).

(** Lines 251 and 252 of [play], then a sequence of calls: the grids and
    scores seen, from the fresh board on. *)
Definition session (seed : Z) (calls : list call)
  : option (list (list (list Z) * Z)) :=
  b ← Board_init (from_seed seed);
  bs ← run b calls;
  Some (observe <$> b :: bs).

(** A game: moves only.  The boards and results after each move. *)
Fixpoint game (b : Board R) (ds : list string)
  : option (list (Board R * MoveResult)) :=
  match ds with
  | [] => Some []
  | d :: ds' =>
      st ← move b d; rest ← game st.1 ds'; Some (st :: rest)
  end.

(** All merge events of a game, move after move. *)
Fixpoint game_events (b : Board R) (ds : list string) : list Z :=
  match ds with
  | [] => []
  | d :: ds' =>
      move_events (lower d) (grid b) ++
      match move b d with
      | Some st => game_events st.1 ds'
      | None => []
      end
  end.

(** The board a game ends with, and the scores it went through. *)
Definition final (b : Board R) (trace : list (Board R * MoveResult)) : Board R :=
  default b (fst <$> last trace).

Definition scores (b : Board R) (trace : list (Board R * MoveResult)) : list Z :=
  score b :: ((λ st, score st.1) <$> trace).

End Vocabulary.

(** ** A concrete random source

    A linear congruential generator: a deterministic stream that stands for
    a seeded [random.Random] in the closed examples below. *)

Definition lcg_next (x : Z) : Z := ((x * 1103515245 + 12345) mod 2147483648)%Z.

Definition lcg_randbelow (x : Z) (n : nat) : nat * Z :=
  let x' := lcg_next x in
  (Z.to_nat ((x' / 65536) mod Z.of_nat n), x').

Definition lcg_random (x : Z) : Q * Z :=
  let x' := lcg_next x in ((x' # 2147483648)%Q, x').

#[export] Instance lcg_source : RandomSource Z.
Proof.
  refine {| from_seed := λ seed, (seed mod 2147483648)%Z;
            randbelow := lcg_randbelow;
            random := lcg_random |}.
  intros x n Hn. unfold lcg_randbelow. cbn [fst].
  pose proof (Z.mod_pos_bound (lcg_next x / 65536) (Z.of_nat n)) as Hb.
  lia.
Defined.

(** ** Counting tiles *)

(** The sum, over all cells, of a weight of the value in the cell. *)
Definition grid_sum (h : Z → Z) (g : list (list Z)) : Z :=
  sum_Z (h <$> concat g).

(** The sum of the tiles on the grid, and the number of tiles. *)
Definition tile_total (g : list (list Z)) : Z := grid_sum id g.

Definition occupied (v : Z) : Z := if decide (v = 0%Z) then 0%Z else 1%Z.

Definition tile_count (g : list (list Z)) : Z := grid_sum occupied g.

(** A line without a gap: no tile comes after an empty cell. *)
Definition packed (l : list Z) : Prop :=
  ∀ i j x, i < j → l !! i = Some 0%Z → l !! j = Some x → x = 0%Z.

(** The cell of the grid that position [j] of line [i] is read from. *)
Definition line_cell (d : string) (i j : nat) : nat * nat :=
  if decide (d = "a") then (i, j)
  else if decide (d = "d") then (i, SIZE - 1 - j)
  else if decide (d = "w") then (j, i)
  else (SIZE - 1 - j, i).

(** * The text interface of [main.py]

    Strings are Rocq strings.  [str] is Python's conversion of an integer
    to its decimal text; [center] is [str.center] with the fill character
    space, after CPython: a string of length [len] in a field of [width]
    gets [marg = width - len] spaces, [marg / 2 + (marg & width & 1)] of
    them on the left. *)

Definition digit (n : Z) : ascii := ascii_of_nat (48 + Z.to_nat n).

(** The decimal digits of [n >= 0] in front of [acc]; [fuel >= n] is
    enough. *)
Fixpoint digits (fuel : nat) (n : Z) (acc : string) : string :=
  let acc' := String (digit (n mod 10)) acc in
  match fuel with
  | 0 => acc'
  | S fuel' =>
      if decide (n < 10)%Z then acc' else digits fuel' (n / 10)%Z acc'
  end.

Definition str (z : Z) : string :=
  if decide (z < 0)%Z then String "-" (digits (Z.to_nat (- z)) (- z) "")
  else digits (Z.to_nat z) z "".

(** The number of digits [digits] writes. *)
Fixpoint digit_count (fuel : nat) (n : Z) : nat :=
  match fuel with
  | 0 => 1
  | S fuel' => if decide (n < 10)%Z then 1 else S (digit_count fuel' (n / 10)%Z)
  end.

(** [s * n] *)
Fixpoint repeat_str (s : string) (n : nat) : string :=
  match n with
  | 0 => ""
  | S n' => s +:+ repeat_str s n'
  end.

Definition center (s : string) (width : nat) : string :=
  let len := String.length s in
  if decide (width ≤ len) then s
  else
    let marg := width - len in
    let left := marg / 2 + Nat.land (Nat.land marg width) 1 in
    repeat_str " " left +:+ s +:+ repeat_str " " (marg - left).

(** The escape character and the styling sequences. *)
Definition ESC : string := String (ascii_of_nat 27) "".
Definition RESET : string := ESC +:+ "[0m".
Definition BOLD : string := ESC +:+ "[1m".
Definition DIM : string := ESC +:+ "[2m".

(** The line feed. *)
Definition LF : string := String (ascii_of_nat 10) "".

(** The dictionary [FG], in the order it is written. *)
Definition FG : list (Z * string) :=
  [ (0, ESC +:+ "[38;5;246m"); (2, ESC +:+ "[38;5;250m");
    (4, ESC +:+ "[38;5;248m"); (8, ESC +:+ "[38;5;214m");
    (16, ESC +:+ "[38;5;208m"); (32, ESC +:+ "[38;5;202m");
    (64, ESC +:+ "[38;5;196m"); (128, ESC +:+ "[38;5;33m");
    (256, ESC +:+ "[38;5;39m"); (512, ESC +:+ "[38;5;75m");
    (1024, ESC +:+ "[38;5;141m"); (2048, ESC +:+ "[38;5;201m") ]%Z.

(** [d[k]] on a dictionary written as a list of pairs with distinct keys;
    [None] when [k not in d]. *)
Fixpoint dict_get {K V : Type} `{EqDecision K} (d : list (K * V)) (k : K)
  : option V :=
  match d with
  | [] => None
  | (k', v) :: d' => if decide (k = k') then Some v else dict_get d' k
  end.

(** ** [Board.render] *)

(** [max(l)]: [None] is the [ValueError] on an empty sequence. *)
Definition max_list (l : list Z) : option Z :=
  match l with
  | [] => None
  | x :: l' => Some (foldl Z.max x l')
  end.

(** The body of the inner loop of [render]: the text of one cell. *)
Definition render_cell (use_color : bool) (cell_width : nat) (v : Z) : string :=
  let s_plain := if decide (v = 0%Z) then "" else str v in
  let cell := center s_plain cell_width in
  match dict_get FG v with
  | Some color =>
      if use_color && negb (String.eqb s_plain "") then color +:+ cell +:+ RESET
      else cell
  | None => cell
  end.

(** One turn of the outer loop: the text of row [r] between bars. *)
Definition render_row (use_color : bool) (cell_width : nat)
    (g : list (list Z)) (r : nat) : option string :=
  row_cells ← mapM (λ c, render_cell use_color cell_width <$> cell g r c)
                   (seq 0 SIZE);
  Some ("|" +:+ String.concat "|" row_cells +:+ "|").

(** [cell_width] and the list [lines] that [render] joins. *)
Definition render_width (g : list (list Z)) : option nat :=
  row_maxes ← mapM max_list g;
  max_val ← max_list row_maxes;
  Some (Nat.max (String.length (str max_val)) 4).

Definition render_lines (g : list (list Z)) (use_color : bool)
  : option (list string) :=
  cell_width ← render_width g;
  let hbar :=
    "+" +:+ String.concat "+" (replicate SIZE (repeat_str "-" cell_width))
        +:+ "+" in
  rows ← mapM (render_row use_color cell_width g) (seq 0 SIZE);
  Some (hbar :: (rows ≫= λ row, [row; hbar])).

Section Render.
Context {R : Type}.

Definition render (b : Board R) (use_color : bool) : option string :=
  String.concat LF <$> render_lines (grid b) use_color.

End Render.

(** ** Reading a rendering without its colours *)

(** What a terminal shows of a text: a styling sequence, from the escape
    character to the letter [m] that ends it, takes no room.  [esc] tells
    whether the text starts inside such a sequence. *)
Fixpoint strip (esc : bool) (s : string) : string :=
  match s with
  | EmptyString => EmptyString
  | String a s' =>
      if esc then strip (negb (Ascii.eqb a "m")) s'
      else if Ascii.eqb a (ascii_of_nat 27) then strip true s'
      else String a (strip false s')
  end.

Definition erase (s : string) : string := strip false s.

(** A text without the escape character. *)
Fixpoint plain (s : string) : Prop :=
  match s with
  | EmptyString => True
  | String a s' => a ≠ ascii_of_nat 27 ∧ plain s'
  end.

(** [c] shows as [p], whatever follows. *)
Definition shows_as (c p : string) : Prop :=
  ∀ t, strip false (c +:+ t) = p +:+ strip false t.

(** * The command line of [main.py] *)

(** ** Characters and texts

    A Python string is a sequence of Unicode characters.  A text is kept
    here as the bytes of its UTF-8 encoding, so that two strings are equal
    exactly when their texts are; a character is given by its code
    point. *)

(** The text of the string of one character, [chr(c)]. *)
Definition utf8 (c : N) : string :=
  if decide (c < 128)%N then String (ascii_of_N c) ""
  else if decide (c < 2048)%N then
    String (ascii_of_N (192 + c / 64))
      (String (ascii_of_N (128 + c mod 64)) "")
  else if decide (c < 65536)%N then
    String (ascii_of_N (224 + c / 4096))
      (String (ascii_of_N (128 + (c / 64) mod 64))
         (String (ascii_of_N (128 + c mod 64)) ""))
  else
    String (ascii_of_N (240 + c / 262144))
      (String (ascii_of_N (128 + (c / 4096) mod 64))
         (String (ascii_of_N (128 + (c / 64) mod 64))
            (String (ascii_of_N (128 + c mod 64)) ""))).

(** A text of ASCII characters only. *)
Fixpoint ascii_text (s : string) : Prop :=
  match s with
  | EmptyString => True
  | String a s' => nat_of_ascii a < 128 ∧ ascii_text s'
  end.

(** [str.lower] follows the Unicode character database, which is no part
    of the program.  What is used of it are two laws: on ASCII text it
    turns the letters A to Z into a to z and nothing else, as [lower]
    does; and the lower case of a character outside ASCII is none of the
    six letters that [play] takes for commands.  It need not be one
    character: the lower case of U+0130 is two. *)
Class Unicode := {
  str_lower : string → string;
  str_lower_ascii : ∀ s, ascii_text s → str_lower s = lower s;
  str_lower_wide :
    ∀ c, (128 ≤ c)%N → str_lower (utf8 c) ∉ ["w"; "a"; "s"; "d"; "r"; "q"]
}.

(** An instance to compute with: it knows the ASCII letters only and
    leaves every other character as it is. *)
#[export] Instance ascii_letters : Unicode.
Proof.
  refine {| str_lower := lower |}.
  - reflexivity.
  - intros c Hc. unfold utf8.
    repeat (case_decide; [try lia|]);
      cbn [lower]; rewrite !elem_of_cons, elem_of_nil;
      intros [Heq|[Heq|[Heq|[Heq|[Heq|[Heq|[]]]]]]]; discriminate Heq.
Defined.

(** ** [read_command] *)

(** What a call of [sys.stdin.read(1)] meets: a character that was typed,
    given by its code point, or Ctrl-C while it waits.  The input still
    to come is a list of these; at its end [read] returns the empty
    string, as it does on a closed pipe. *)
Inductive key : Type :=
  | Key (c : N)
  | CtrlC.

(** [sys.stdin.read(1)]: the string read and the input left; [None] is
    [KeyboardInterrupt]. *)
Definition stdin_read (inp : list key) : option string * list key :=
  match inp with
  | [] => (Some "", [])
  | Key c :: inp' => (Some (utf8 c), inp')
  | CtrlC :: inp' => (None, inp')
  end.

Definition ARROWS : list (string * string) :=
  [("A", "w"); ("B", "s"); ("C", "d"); ("D", "a")].

Section ReadCommand.
Context `{Unicode}.

(** [None] is the [KeyboardInterrupt] that [read_command] lets through:
    only the first [read] is inside the [try]. *)
Definition read_command (inp : list key) : option string * list key :=
  match stdin_read inp with
  | (None, inp1) => (Some "q", inp1)
  | (Some ch, inp1) =>
      if decide (ch = ESC) then
        match stdin_read inp1 with
        | (None, inp2) => (None, inp2)
        | (Some nxt, inp2) =>
            if decide (nxt = "[") then
              match stdin_read inp2 with
              | (None, inp3) => (None, inp3)
              | (Some code, inp3) =>
                  (Some (default "" (dict_get ARROWS code)), inp3)
              end
            else (Some "", inp2)
        end
      else (Some (str_lower ch), inp1)
  end.

End ReadCommand.

(** ** [play] *)

(** What [play] sends to the terminal: [clear_screen()], and [print(s)]. *)
Inductive output : Type :=
  | clear_screen
  | print (s : string).

(** Where the loop of [play] stands: at the top of the next turn with a
    board and the input left, after [break], or left by an exception,
    [KeyboardInterrupt] or an error of the engine. *)
Inductive progress (R : Type) : Type :=
  | Continue (b : Board R) (inp : list key)
  | Break
  | Interrupted
  | Failed.
Arguments Continue {R} _ _.
Arguments Break {R}.
Arguments Interrupted {R}.
Arguments Failed {R}.

(** The texts of [play]; they are UTF-8. *)
Definition title (use_color : bool) : string :=
  (if use_color then BOLD else "") +:+ "2048 — Tiny (Turn‑Based)"
    +:+ (if use_color then RESET else "").

Definition controls : string :=
  "Controls: WASD or arrows = move • r = restart • q = quit".

Definition seed_line (seed : Z) : string :=
  "Deterministic mode seed = " +:+ str seed.

Definition score_line (sc : Z) : string := "Score: " +:+ str sc.

Definition game_over_text (use_color : bool) : string :=
  BOLD +:+ (LF +:+ "Game over! Press r to restart, q to quit.")
    +:+ (if use_color then RESET else "").

Section Play.
Context {R : Type} `{RandomSource R} `{Unicode}.

(** One turn of the [while True] loop: what it prints, and how it ends. *)
Definition play_turn (seed : option Z) (use_color : bool)
    (b : Board R) (inp : list key) : list output * progress R :=
  let head :=
    [clear_screen; print (title use_color); print controls]
    ++ match seed with Some s => [print (seed_line s)] | None => [] end
    ++ [print ""] in
  match render b use_color with
  | None => (head, Failed)
  | Some text =>
      let shown := head ++ [print text; print (score_line (score b))] in
      match has_moves b with
      | None => (shown, Failed)
      | Some false =>
          let out := shown ++ [print (game_over_text use_color)] in
          match read_command inp with
          | (None, _) => (out, Interrupted)
          | (Some cmd, inp') =>
              if decide (cmd = "r") then
                match restart b with
                | Some b' => (out, Continue b' inp')
                | None => (out, Failed)
                end
              else if decide (cmd = "q") then (out, Break)
              else (out, Continue b inp')
          end
      | Some true =>
          match read_command inp with
          | (None, _) => (shown, Interrupted)
          | (Some cmd, inp') =>
              if decide (cmd ∈ ["w"; "a"; "s"; "d"]) then
                match move b cmd with
                | Some st => (shown, Continue st.1 inp')
                | None => (shown, Failed)
                end
              else if decide (cmd = "r") then
                match restart b with
                | Some b' => (shown, Continue b' inp')
                | None => (shown, Failed)
                end
              else if decide (cmd = "q") then (shown, Break)
              else (shown, Continue b inp')
          end
      end
  end.

(** The first [turns] turns of the loop: what they print, and where the
    loop stands after them.  [play] returns when some number of turns
    gives [Break]. *)
Fixpoint play_loop (turns : nat) (seed : option Z) (use_color : bool)
    (b : Board R) (inp : list key) : list output * progress R :=
  match turns with
  | 0 => ([], Continue b inp)
  | S turns' =>
      match play_turn seed use_color b inp with
      | (out, Continue b' inp') =>
          let rest := play_loop turns' seed use_color b' inp' in
          (out ++ rest.1, rest.2)
      | stop => stop
      end
  end.

(** [play(seed, use_color)].  Without a seed [random.Random(None)] seeds
    itself from what the system provides, here [entropy]. *)
Definition play (turns : nat) (entropy : Z) (seed : option Z)
    (use_color : bool) (inp : list key) : list output * progress R :=
  match Board_init (from_seed (default entropy seed)) with
  | Some b => play_loop turns seed use_color b inp
  | None => ([], Failed)
  end.

(** ** The game that [play] plays *)

(** The call of the board that a command stands for. *)
Definition call_of (cmd : string) : option call :=
  if decide (cmd ∈ directions) then Some (Move cmd)
  else if decide (cmd = "r") then Some Restart
  else None.

(** The loop without its screen: read a command, stop at [q], else make
    the call it stands for. *)
Fixpoint follow (turns : nat) (b : Board R) (inp : list key) : progress R :=
  match turns with
  | 0 => Continue b inp
  | S turns' =>
      match read_command inp with
      | (None, _) => Interrupted
      | (Some cmd, inp') =>
          if decide (cmd = "q") then Break
          else
            match call_of cmd with
            | Some c =>
                match step b c with
                | Some b' => follow turns' b' inp'
                | None => Failed
                end
            | None => follow turns' b inp'
            end
      end
  end.

End Play.

(** A key that does not end [play]: not Ctrl-C, and neither [q], the
    character 113, nor [Q], the character 81. *)
Definition harmless (k : key) : Prop :=
  match k with
  | Key c => c ≠ 113%N ∧ c ≠ 81%N
  | CtrlC => False
  end.

(** * Properties *)

(** ** One line: compact, merge once, pad *)

Lemma list_pair_ind (P : list Z → Prop) :
  P [] → (∀ x, P [x]) →
  (∀ x y l, P l → P (y :: l) → P (x :: y :: l)) →
  ∀ l, P l.
Proof.
  intros Hnil Hone Hstep l.
  assert (P l ∧ ∀ a, P (a :: l)) as [Hl _]; [|exact Hl].
  induction l as [|b l [IH1 IH2]]; split; auto.
Qed.

Lemma merge_scan_two (x y : Z) (l merged : list Z) (s : Z) :
  merge_scan (x :: y :: l) merged s =
  if decide (x = y) then merge_scan l (merged ++ [(x * 2)%Z]) (s + x * 2)%Z
  else merge_scan (y :: l) (merged ++ [x]) s.
Proof. reflexivity. Qed.

Lemma merge_scan_acc (rest merged : list Z) (s : Z) :
  merge_scan rest merged s = (merged ++ merged_of rest, (s + gain_of rest)%Z).
Proof.
  revert merged s. induction rest as [|x|x y l IH1 IH2] using list_pair_ind;
    intros merged s.
  - cbn. by rewrite app_nil_r, Z.add_0_r.
  - cbn. by rewrite Z.add_0_r.
  - unfold merged_of, gain_of. rewrite !merge_scan_two. destruct (decide (x = y)).
    + rewrite (IH1 (merged ++ _)), (IH1 ([] ++ _)). cbn [fst snd].
      rewrite <- app_assoc. f_equal. cbn. lia.
    + rewrite (IH2 (merged ++ _)), (IH2 ([] ++ _)). cbn [fst snd].
      rewrite <- app_assoc. f_equal.
  Qed.

Lemma merged_of_nil : merged_of [] = [].
Proof. reflexivity. Qed.

Lemma merged_of_one x : merged_of [x] = [x].
Proof. reflexivity. Qed.

Lemma merged_of_pair x l : merged_of (x :: x :: l) = (x * 2)%Z :: merged_of l.
Proof.
  unfold merged_of at 1. rewrite merge_scan_two, decide_True by done.
  by rewrite merge_scan_acc.
Qed.

Lemma merged_of_skip x y l : x ≠ y → merged_of (x :: y :: l) = x :: merged_of (y :: l).
Proof.
  intros Hne. unfold merged_of at 1.
  rewrite merge_scan_two, decide_False by done. by rewrite merge_scan_acc.
Qed.

Lemma gain_of_pair x l : gain_of (x :: x :: l) = (x * 2 + gain_of l)%Z.
Proof.
  unfold gain_of at 1. rewrite merge_scan_two, decide_True by done.
  by rewrite merge_scan_acc.
Qed.

Lemma gain_of_skip x y l : x ≠ y → gain_of (x :: y :: l) = gain_of (y :: l).
Proof.
  intros Hne. unfold gain_of at 1.
  rewrite merge_scan_two, decide_False by done. by rewrite merge_scan_acc.
Qed.

Lemma merge_events_two (x y : Z) (l : list Z) :
  merge_events (x :: y :: l) =
  if decide (x = y) then (2 * x)%Z :: merge_events l else merge_events (y :: l).
Proof. reflexivity. Qed.

Lemma merged_of_single_pass (c : list Z) : single_pass c (merged_of c).
Proof.
  induction c as [|x|x y l IH1 IH2] using list_pair_ind.
  - constructor.
  - rewrite merged_of_one. repeat constructor.
  - destruct (decide (x = y)) as [->|Hne].
    + rewrite merged_of_pair. by constructor.
    + rewrite merged_of_skip by done. by constructor.
Qed.

Lemma gain_of_events (c : list Z) : gain_of c = sum_Z (merge_events c).
Proof.
  induction c as [|x|x y l IH1 IH2] using list_pair_ind; [done..|].
  rewrite merge_events_two. destruct (decide (x = y)) as [->|Hne].
  - rewrite gain_of_pair, IH1. unfold sum_Z. cbn [foldr]. lia.
  - by rewrite gain_of_skip.
Qed.

Lemma merged_of_length (c : list Z) : length (merged_of c) ≤ length c.
Proof.
  induction c as [|x|x y l IH1 IH2] using list_pair_ind; [done..|].
  destruct (decide (x = y)) as [->|Hne].
  - rewrite merged_of_pair. cbn. lia.
  - rewrite merged_of_skip by done. cbn in *. lia.
Qed.

(** A line without merge event is copied; a merge event shortens it. *)
Lemma merged_of_no_event (c : list Z) :
  (merge_events c = [] ∧ merged_of c = c) ∨ length (merged_of c) < length c.
Proof.
  induction c as [|x|x y l IH1 IH2] using list_pair_ind; [by left..|].
  destruct (decide (x = y)) as [->|Hne].
  - right. rewrite merged_of_pair. pose proof (merged_of_length l). cbn. lia.
  - rewrite merged_of_skip, merge_events_two, decide_False by done.
    destruct IH2 as [[-> ->]|Hlt]; [by left|right; cbn in *; lia].
Qed.

Lemma merged_of_Forall (P : Z → Prop) (c : list Z) :
  (∀ x, P x → P (x * 2)%Z) → Forall P c → Forall P (merged_of c).
Proof.
  intros Hdouble. induction c as [|x|x y l IH1 IH2] using list_pair_ind;
    intros Hc; [done..|].
  destruct (decide (x = y)) as [->|Hne].
  - rewrite merged_of_pair. inversion Hc as [|? ? Hy Hc']; subst.
    inversion Hc'; subst. constructor; auto.
  - rewrite merged_of_skip by done. inversion Hc; subst. constructor; auto.
Qed.

Lemma merge_events_Forall (P : Z → Prop) (c : list Z) :
  (∀ x, P x → P (2 * x)%Z) → Forall P c → Forall P (merge_events c).
Proof.
  intros Hdouble. induction c as [|x|x y l IH1 IH2] using list_pair_ind;
    intros Hc; [constructor..|].
  rewrite merge_events_two. inversion Hc as [|? ? Hx Hc']; subst.
  destruct (decide (x = y)) as [->|Hne]; [|auto].
  inversion Hc'; subst. constructor; auto.
Qed.

Lemma compact_nonzero (arr : list Z) : Forall (λ x, x ≠ 0%Z) (compact arr).
Proof.
  unfold compact. apply Forall_forall. intros x Hx.
  by apply list_elem_of_filter in Hx as [? _].
Qed.

Lemma compact_id (c : list Z) : Forall (λ x, x ≠ 0%Z) c → compact c = c.
Proof.
  unfold compact. induction 1 as [|x c Hx _ IH]; [done|].
  by rewrite filter_cons_True, IH.
Qed.

Lemma compact_pad (m : list Z) : Forall (λ x, x ≠ 0%Z) m → compact (pad m) = m.
Proof.
  intros Hm. unfold pad, compact. rewrite filter_app.
  fold (compact m). rewrite compact_id by done.
  generalize (SIZE - length m). intros n.
  induction n as [|n IH]; [by rewrite app_nil_r|].
  cbn [replicate]. rewrite filter_cons_False by (intros Hne; by apply Hne).
  exact IH.
Qed.

Lemma compact_process (arr : list Z) :
  compact (process arr) = merged_of (compact arr).
Proof.
  apply compact_pad, merged_of_Forall; [lia|apply compact_nonzero].
Qed.

(** A line that comes back unchanged had no merge event. *)
Lemma process_fixed_no_event (arr : list Z) :
  process arr = arr → merge_events (compact arr) = [].
Proof.
  intros Hfix. pose proof (compact_process arr) as Hc. rewrite Hfix in Hc.
  destruct (merged_of_no_event (compact arr)) as [[He _]|Hlt]; [done|].
  rewrite <- Hc in Hlt. lia.
Qed.

Lemma process_fixed_gain (arr : list Z) : process arr = arr → line_gain arr = 0%Z.
Proof.
  intros Hfix. unfold line_gain.
  by rewrite gain_of_events, process_fixed_no_event.
Qed.

Lemma process_length (arr : list Z) :
  length arr ≤ SIZE → length (process arr) = SIZE.
Proof.
  intros Hlen. unfold process, pad. rewrite length_app, length_replicate.
  pose proof (merged_of_length (compact arr)).
  pose proof (length_filter (λ x, x ≠ 0%Z) arr). fold (compact arr) in *. lia.
Qed.

(** ** The grid as four lines *)

Lemma length_four (l : list Z) : length l = SIZE → ∃ a b c d, l = [a; b; c; d].
Proof.
  destruct l as [|a [|b [|c [|d [|e l]]]]]; try discriminate. eauto.
Qed.

Lemma wf_rows (g : list (list Z)) :
  wf g →
  ∃ r0 r1 r2 r3, g = [r0; r1; r2; r3] ∧ length r0 = SIZE ∧ length r1 = SIZE ∧
                 length r2 = SIZE ∧ length r3 = SIZE.
Proof.
  intros [Hl Hr]. destruct g as [|r0 [|r1 [|r2 [|r3 [|r4 l]]]]]; try discriminate.
  repeat match goal with
         | H : Forall _ (_ :: _) |- _ => apply Forall_cons in H as [? H]
         end.
  eauto 10.
Qed.

Lemma wf_cells (g : list (list Z)) :
  wf g →
  ∃ a0 a1 a2 a3 b0 b1 b2 b3 c0 c1 c2 c3 d0 d1 d2 d3,
    g = [[a0; a1; a2; a3]; [b0; b1; b2; b3]; [c0; c1; c2; c3]; [d0; d1; d2; d3]].
Proof.
  intros (r0&r1&r2&r3&->&H0&H1&H2&H3)%wf_rows.
  apply length_four in H0 as (a0&a1&a2&a3&->), H1 as (b0&b1&b2&b3&->),
    H2 as (c0&c1&c2&c3&->), H3 as (d0&d1&d2&d3&->).
  eauto 20.
Qed.

Lemma wf_explicit a0 a1 a2 a3 b0 b1 b2 b3 c0 c1 c2 c3 d0 d1 d2 d3 :
  wf [[a0; a1; a2; a3]; [b0; b1; b2; b3]; [c0; c1; c2; c3]; [d0; d1; d2; d3]].
Proof. split; [done|]. by repeat constructor. Qed.

(** Case analysis on a recognised direction. *)
Ltac each_direction H :=
  unfold directions in H;
  repeat (apply elem_of_cons in H as [->|H]); [..|by apply elem_of_nil in H].

Lemma move_line_eq (d : string) (g : list (list Z)) (s : Z) (i : nat) :
  move_line d (g, s) i =
  arr ← line d g i;
  g' ← write_line d g i (process arr);
  Some (g', (s + line_gain arr)%Z).
Proof.
  unfold move_line. cbn [fst snd]. destruct (line d g i) as [arr|]; [|done].
  cbn [mbind option_bind]. by rewrite merge_scan_acc.
Qed.

Lemma process_shape (arr : list Z) :
  length arr = SIZE → ∃ a b c d, process arr = [a; b; c; d].
Proof. intros Hl. apply length_four, process_length. lia. Qed.

Ltac eval_read f :=
  match goal with
  | |- context [f ?d ?g ?i] =>
      let r := eval vm_compute in (f d g i) in change (f d g i) with r
  end.

Ltac eval_write f :=
  match goal with
  | |- context [f ?d ?g ?i ?v] =>
      let r := eval vm_compute in (f d g i v) in change (f d g i v) with r
  end.

Ltac name_process :=
  match goal with
  | |- context [process ?l] =>
      let H := fresh "Hp" in
      destruct (process_shape l eq_refl) as (?&?&?&?&H); rewrite ?H
  end.

Ltac slide_step :=
  rewrite move_line_eq; eval_read line; cbn [mbind option_bind];
  name_process; eval_write write_line; cbn [mbind option_bind].

Ltac forget_gains :=
  repeat match goal with
         | |- context [line_gain ?l] => generalize (line_gain l); intro
         end.

(** On a well-formed grid the loop of [move] processes the four lines
    independently, writes them back in place, and adds up their gains. *)
Lemma slide_lines (d : string) (g : list (list Z)) :
  wf g → d ∈ directions →
  slide d g = Some (unlines d (process <$> lines d g),
                    sum_Z (line_gain <$> lines d g)).
Proof.
  intros (a0&a1&a2&a3&b0&b1&b2&b3&c0&c1&c2&c3&d0&d1&d2&d3&->)%wf_cells Hd.
  each_direction Hd.
  all: unfold slide; cbn [seq SIZE for_each].
  all: match goal with
       | |- context [lines ?d ?g] =>
           let r := eval vm_compute in (lines d g) in change (lines d g) with r
       end; cbn [fmap list_fmap].
  all: do 4 slide_step.
  all: forget_gains; apply (f_equal Some), (f_equal2 pair);
    [vm_compute; reflexivity | unfold sum_Z; cbn [foldr]; lia].
Qed.

Lemma unlines_lines (d : string) (g : list (list Z)) :
  wf g → d ∈ directions → unlines d (lines d g) = g.
Proof.
  intros (a0&a1&a2&a3&b0&b1&b2&b3&c0&c1&c2&c3&d0&d1&d2&d3&->)%wf_cells Hd.
  each_direction Hd; reflexivity.
Qed.

Lemma lines_unlines (d : string) (ls : list (list Z)) :
  wf ls → d ∈ directions → lines d (unlines d ls) = ls.
Proof.
  intros (a0&a1&a2&a3&b0&b1&b2&b3&c0&c1&c2&c3&d0&d1&d2&d3&->)%wf_cells Hd.
  each_direction Hd; reflexivity.
Qed.

Lemma wf_lines (d : string) (g : list (list Z)) :
  wf g → d ∈ directions → wf (lines d g).
Proof.
  intros (a0&a1&a2&a3&b0&b1&b2&b3&c0&c1&c2&c3&d0&d1&d2&d3&->)%wf_cells Hd.
  each_direction Hd; apply wf_explicit.
Qed.

Lemma wf_unlines (d : string) (ls : list (list Z)) :
  wf ls → d ∈ directions → wf (unlines d ls).
Proof.
  intros (a0&a1&a2&a3&b0&b1&b2&b3&c0&c1&c2&c3&d0&d1&d2&d3&->)%wf_cells Hd.
  each_direction Hd; apply wf_explicit.
Qed.

Lemma wf_process (ls : list (list Z)) : wf ls → wf (process <$> ls).
Proof.
  intros [Hl Hr]. split; [by rewrite length_fmap|].
  apply Forall_fmap. eapply Forall_impl; [exact Hr|].
  intros row Hrow. apply process_length. by rewrite Hrow.
Qed.

Ltac split_Forall :=
  repeat match goal with
         | H : Forall _ (_ :: _) |- _ => apply Forall_cons in H as [? H]
         | H : Forall _ [] |- _ => clear H
         end.

Lemma Forall_lines (P : Z → Prop) (d : string) (g : list (list Z)) :
  wf g → d ∈ directions → Forall (Forall P) g → Forall (Forall P) (lines d g).
Proof.
  intros (a0&a1&a2&a3&b0&b1&b2&b3&c0&c1&c2&c3&d0&d1&d2&d3&->)%wf_cells Hd HP.
  split_Forall. each_direction Hd; by repeat constructor.
Qed.

Lemma Forall_unlines (P : Z → Prop) (d : string) (ls : list (list Z)) :
  wf ls → d ∈ directions → Forall (Forall P) ls → Forall (Forall P) (unlines d ls).
Proof.
  intros (a0&a1&a2&a3&b0&b1&b2&b3&c0&c1&c2&c3&d0&d1&d2&d3&->)%wf_cells Hd HP.
  split_Forall. each_direction Hd; by repeat constructor.
Qed.

Lemma slide_wf (d : string) (g : list (list Z)) :
  wf g → d ∈ directions → ∃ g' s, slide d g = Some (g', s) ∧ wf g'.
Proof.
  intros Hg Hd. eexists _, _. split; [by apply slide_lines|].
  apply wf_unlines; [by apply wf_process, wf_lines|done].
Qed.

Lemma fixed_lines_gain (ls : list (list Z)) :
  process <$> ls = ls → sum_Z (line_gain <$> ls) = 0%Z.
Proof.
  induction ls as [|l ls IH]; [done|].
  intros [= Hl Hls]. unfold sum_Z in *. cbn [fmap list_fmap foldr].
  rewrite process_fixed_gain, IH by done. done.
Qed.

(** A slide that gives the grid back has earned nothing. *)
Lemma slide_fixed_gain (d : string) (g : list (list Z)) (s : Z) :
  wf g → d ∈ directions → slide d g = Some (g, s) → s = 0%Z.
Proof.
  intros Hg Hd Hs. rewrite slide_lines in Hs by done.
  injection Hs as Hgrid <-. apply fixed_lines_gain.
  rewrite <- Hgrid at 2.
  rewrite lines_unlines; [done| |done]. by apply wf_process, wf_lines.
Qed.

(** ** Tile values *)

Lemma power_tile_double (v : Z) : power_tile v → power_tile (v * 2).
Proof.
  intros [k ->]. exists (S k).
  rewrite (Nat2Z.inj_succ (S k)), Z.pow_succ_r by lia. lia.
Qed.

Lemma power_tile_pos (v : Z) : power_tile v → (2 ≤ v)%Z.
Proof.
  intros [k ->]. rewrite Nat2Z.inj_succ, Z.pow_succ_r by lia.
  pose proof (Z.pow_pos_nonneg 2 (Z.of_nat k)). lia.
Qed.

Lemma tile_nonneg (v : Z) : tile v → (0 ≤ v)%Z.
Proof. intros [->|Hv%power_tile_pos]; lia. Qed.

Lemma compact_tiles (arr : list Z) :
  Forall tile arr → Forall power_tile (compact arr).
Proof.
  intros Harr. apply Forall_forall. intros x [Hx Hin]%list_elem_of_filter.
  rewrite Forall_forall in Harr. by destruct (Harr x Hin).
Qed.

Lemma process_tiles (arr : list Z) : Forall tile arr → Forall tile (process arr).
Proof.
  intros Harr. unfold process, pad. apply Forall_app. split.
  - eapply Forall_impl; [|intros v Hv; right; exact Hv].
    apply merged_of_Forall; [apply power_tile_double|by apply compact_tiles].
  - apply Forall_replicate. by left.
Qed.

Lemma sum_Z_nonneg (l : list Z) : Forall (λ v, 0 ≤ v)%Z l → (0 ≤ sum_Z l)%Z.
Proof. unfold sum_Z. induction 1; cbn [foldr]; lia. Qed.

Lemma line_gain_nonneg (arr : list Z) : Forall tile arr → (0 ≤ line_gain arr)%Z.
Proof.
  intros Harr. unfold line_gain. rewrite gain_of_events.
  apply sum_Z_nonneg, merge_events_Forall; [lia|].
  eapply Forall_impl; [by apply compact_tiles|].
  intros v Hv%power_tile_pos. lia.
Qed.

Lemma slide_tiles (d : string) (g g' : list (list Z)) (s : Z) :
  wf g → d ∈ directions → tiles g → slide d g = Some (g', s) →
  tiles g' ∧ (0 ≤ s)%Z.
Proof.
  intros Hg Hd Ht Hs. rewrite slide_lines in Hs by done.
  injection Hs as <- <-.
  pose proof (Forall_lines tile d g Hg Hd Ht) as Hl. split.
  - apply Forall_unlines; [by apply wf_process, wf_lines|done|].
    apply Forall_fmap. eapply Forall_impl; [exact Hl|].
    intros l. apply process_tiles.
  - apply sum_Z_nonneg, Forall_fmap. eapply Forall_impl; [exact Hl|].
    intros l. apply line_gain_nonneg.
Qed.

(** ** Cells of a well-formed grid *)

Lemma cell_wf (g : list (list Z)) (r c : nat) :
  wf g → r < SIZE → c < SIZE → is_Some (cell g r c).
Proof.
  intros [Hl Hr] Hrlt Hclt. unfold cell.
  destruct (lookup_lt_is_Some_2 g r) as [row Hrow]; [lia|].
  rewrite Hrow. cbn. apply lookup_lt_is_Some_2.
  rewrite Forall_forall in Hr. rewrite (Hr row); [done|].
  by eapply list_elem_of_lookup_2.
Qed.

Lemma cell_Some_lt (g : list (list Z)) (r c : nat) (v : Z) :
  wf g → cell g r c = Some v → r < SIZE ∧ c < SIZE.
Proof.
  intros [Hl Hr] Hc. unfold cell in Hc.
  destruct (g !! r) as [row|] eqn:Hrow; [|done]. cbn in Hc.
  apply lookup_lt_Some in Hc. pose proof (lookup_lt_Some _ _ _ Hrow).
  rewrite Forall_forall in Hr. rewrite (Hr row) in Hc; [lia|].
  by eapply list_elem_of_lookup_2.
Qed.

Lemma all_cells_spec (r c : nat) : (r, c) ∈ all_cells ↔ r < SIZE ∧ c < SIZE.
Proof.
  unfold all_cells. rewrite list_elem_of_bind. split.
  - intros (r'&(c'&Hin&Hc)%list_elem_of_bind&Hr).
    apply list_elem_of_singleton in Hin as [= -> ->].
    apply elem_of_seq in Hr, Hc. lia.
  - intros [Hr Hc]. exists r. split; [|apply elem_of_seq; lia].
    apply list_elem_of_bind. exists c. split; [by apply list_elem_of_singleton|].
    apply elem_of_seq. lia.
Qed.

Lemma set_cell_nat (g : list (list Z)) (r c : nat) (v : Z) (row : list Z) :
  g !! r = Some row → c < length row →
  set_cell g (Z.of_nat r) c v = Some (<[r := <[c := v]> row]> g).
Proof.
  intros Hrow Hc. unfold set_cell, py_index.
  pose proof (lookup_lt_Some _ _ _ Hrow).
  rewrite decide_True by lia. cbn [mbind option_bind].
  rewrite Nat2Z.id, Hrow. cbn [mbind option_bind]. by rewrite decide_True.
Qed.

Lemma cell_insert (g : list (list Z)) (r c r' c' : nat) (v : Z) (row : list Z) :
  g !! r = Some row → c < length row →
  cell (<[r := <[c := v]> row]> g) r' c' =
  if decide (r' = r ∧ c' = c) then Some v else cell g r' c'.
Proof.
  intros Hrow Hc. pose proof (lookup_lt_Some _ _ _ Hrow). unfold cell.
  destruct (decide (r' = r)) as [->|Hr].
  - rewrite list_lookup_insert_eq by done. cbn [mbind option_bind].
    rewrite Hrow. cbn [mbind option_bind].
    destruct (decide (c' = c)) as [->|Hne].
    + rewrite decide_True by done. by apply list_lookup_insert_eq.
    + rewrite decide_False by tauto. by apply list_lookup_insert_ne.
  - rewrite decide_False by tauto. by rewrite list_lookup_insert_ne.
Qed.

Lemma wf_insert (g : list (list Z)) (r c : nat) (v : Z) (row : list Z) :
  wf g → g !! r = Some row → wf (<[r := <[c := v]> row]> g).
Proof.
  intros [Hl Hr] Hrow. split; [by rewrite length_insert|].
  apply Forall_insert; [done|]. rewrite length_insert.
  rewrite Forall_forall in Hr. apply Hr. by eapply list_elem_of_lookup_2.
Qed.

Lemma tiles_insert (g : list (list Z)) (r c : nat) (v : Z) (row : list Z) :
  tiles g → g !! r = Some row → tile v → tiles (<[r := <[c := v]> row]> g).
Proof.
  intros Ht Hrow Hv. apply Forall_insert; [done|]. apply Forall_insert; [|done].
  unfold tiles in Ht. rewrite Forall_forall in Ht. apply Ht.
  by eapply list_elem_of_lookup_2.
Qed.

(** ** The empty cells *)

Lemma empties_of_spec (g : list (list Z)) (cells : list (nat * nat)) :
  wf g → Forall (λ rc, rc ∈ all_cells) cells →
  ∃ es, empties_of g cells = Some es ∧
        ∀ rc, rc ∈ es ↔ rc ∈ cells ∧ cell g rc.1 rc.2 = Some 0%Z.
Proof.
  intros Hg. induction 1 as [|[r c] cells Hin _ (es&Hes&Hspec)].
  - exists []. split; [done|]. intros rc. split; [by intros ?%elem_of_nil|].
    by intros [?%elem_of_nil _].
  - apply all_cells_spec in Hin as [Hr Hc].
    destruct (cell_wf g r c Hg Hr Hc) as [v Hv].
    cbn [empties_of fst snd]. rewrite Hv, Hes. cbn [mbind option_bind].
    eexists. split; [done|]. intros rc.
    destruct (decide (v = 0%Z)) as [->|Hne].
    + rewrite !elem_of_cons, Hspec. split.
      * intros [->|[? ?]]; [by split; [left|]|by split; [right|]].
      * intros [[->|?] ?]; [by left|by right].
    + rewrite elem_of_cons, Hspec. split; [by intros [? ?]; split; [right|]|].
      intros [[->|?] Hz]; [|done]. cbn in Hz. congruence.
Qed.

Lemma empties_spec (g : list (list Z)) :
  wf g →
  ∃ es, empties g = Some es ∧ ∀ r c, (r, c) ∈ es ↔ cell g r c = Some 0%Z.
Proof.
  intros Hg. destruct (empties_of_spec g all_cells Hg) as (es&Hes&Hspec).
  { by apply Forall_forall. }
  exists es. split; [done|]. intros r c. rewrite (Hspec (r, c)). cbn.
  split; [by intros [_ ?]|]. intros Hz. split; [|done].
  apply all_cells_spec. by eapply cell_Some_lt.
Qed.

(** ** Spawning, moving and restarting on a well-formed grid *)

Section Properties.
Context {R : Type} `{RandomSource R}.

Lemma spawn_value_tile (s : R) (n : nat) : tile (spawn_value s n).
Proof.
  unfold spawn_value. right. destruct (float_lt _ _); [by exists 1|by exists 0].
Qed.

Lemma spawn_full (b : Board R) :
  empties (grid b) = Some [] → _spawn_random_tile b = Some b.
Proof. intros Hes. unfold _spawn_random_tile. by rewrite Hes. Qed.

Lemma spawn_some (b : Board R) (es : list (nat * nat)) :
  wf (grid b) → empties (grid b) = Some es → es ≠ [] →
  (∀ r c, (r, c) ∈ es ↔ cell (grid b) r c = Some 0%Z) →
  ∃ r c row,
    es !! spawn_index (rng b) (length es) = Some (r, c) ∧
    grid b !! r = Some row ∧ row !! c = Some 0%Z ∧
    _spawn_random_tile b =
      Some (mkBoard (spawn_rng (rng b) (length es))
              (<[r := <[c := spawn_value (rng b) (length es)]> row]> (grid b))
              (score b)).
Proof.
  intros Hg Hes Hne Hspec. unfold _spawn_random_tile. rewrite Hes.
  cbn [mbind option_bind]. destruct es as [|rc es']; [done|].
  set (es := rc :: es') in *.
  assert (spawn_index (rng b) (length es) < length es) as Hlt.
  { apply randbelow_lt. cbn. lia. }
  destruct (lookup_lt_is_Some_2 _ _ Hlt) as [[r c] Hrc].
  assert (cell (grid b) r c = Some 0%Z) as Hz.
  { apply Hspec. by eapply list_elem_of_lookup_2. }
  unfold cell in Hz. destruct (grid b !! r) as [row|] eqn:Hrow; [|done].
  cbn in Hz. exists r, c, row. repeat split; [done..|].
  fold (spawn_index (rng b) (length es)). rewrite Hrc.
  cbn [mbind option_bind fst snd].
  rewrite (set_cell_nat _ _ _ _ row) by (by eauto using lookup_lt_Some).
  done.
Qed.

(** A spawn never fails; it keeps the score and the shape of the grid. *)
Lemma spawn_total (b : Board R) :
  wf (grid b) →
  ∃ b', _spawn_random_tile b = Some b' ∧ wf (grid b') ∧ score b' = score b ∧
        (tiles (grid b) → tiles (grid b')).
Proof.
  intros Hg. destruct (empties_spec (grid b) Hg) as (es&Hes&Hspec).
  destruct (decide (es = [])) as [->|Hne].
  - exists b. by rewrite spawn_full.
  - destruct (spawn_some b es Hg Hes Hne Hspec) as (r&c&row&_&Hrow&_&->).
    eexists. split; [done|]. cbn. split; [by apply wf_insert|]. split; [done|].
    intros Ht. apply tiles_insert; [done..|apply spawn_value_tile].
Qed.

Lemma move_unrecognised (b : Board R) (d : string) :
  lower d ∉ directions → move b d = Some (b, mkMoveResult false 0).
Proof. intros Hd. unfold move. by rewrite decide_True. Qed.

Lemma move_recognised (b : Board R) (d : string) :
  lower d ∈ directions →
  move b d =
  st ← slide (lower d) (grid b);
  if bool_decide (st.1 ≠ grid b) then
    b' ← _spawn_random_tile (mkBoard (rng b) st.1 (score b + st.2)%Z);
    Some (b', mkMoveResult true st.2)
  else Some (mkBoard (rng b) st.1 (score b), mkMoveResult false st.2).
Proof.
  intros Hd. unfold move. rewrite decide_False by (intros Hn; by apply Hn).
  destruct (slide (lower d) (grid b)) as [st|]; [|done].
  cbn [mbind option_bind]. by destruct (bool_decide (st.1 ≠ grid b)).
Qed.

(** A recognised move that changes nothing: board kept, no gain, no draw. *)
Lemma move_unchanged (b : Board R) (d : string) :
  wf (grid b) → lower d ∈ directions → slid_grid (lower d) (grid b) = grid b →
  move b d = Some (b, mkMoveResult false 0).
Proof.
  intros Hg Hd Hfix.
  assert (slid_gain (lower d) (grid b) = 0%Z) as Hgain.
  { apply (slide_fixed_gain (lower d) (grid b)); [done..|].
    rewrite slide_lines by done. fold (slid_grid (lower d) (grid b)).
    by rewrite Hfix. }
  rewrite move_recognised, slide_lines by done.
  cbn [mbind option_bind fst snd].
  fold (slid_grid (lower d) (grid b)) (slid_gain (lower d) (grid b)).
  rewrite Hfix, Hgain, bool_decide_false by (intros Hn; by apply Hn).
  by destruct b.
Qed.

(** A recognised move that changes the grid: gain credited, one spawn. *)
Lemma move_changed (b : Board R) (d : string) :
  wf (grid b) → lower d ∈ directions → slid_grid (lower d) (grid b) ≠ grid b →
  move b d =
  b' ← _spawn_random_tile
         (mkBoard (rng b) (slid_grid (lower d) (grid b))
            (score b + slid_gain (lower d) (grid b))%Z);
  Some (b', mkMoveResult true (slid_gain (lower d) (grid b))).
Proof.
  intros Hg Hd Hne. rewrite move_recognised, slide_lines by done.
  cbn [mbind option_bind fst snd]. fold (slid_grid (lower d) (grid b)).
  by rewrite bool_decide_true.
Qed.

Lemma wf_slid_grid (d : string) (g : list (list Z)) :
  wf g → d ∈ directions → wf (slid_grid d g).
Proof.
  intros Hg Hd. apply wf_unlines; [by apply wf_process, wf_lines|done].
Qed.

(** [move] never fails on a well-formed grid. *)
Lemma move_total (b : Board R) (d : string) :
  wf (grid b) →
  ∃ b' res, move b d = Some (b', res) ∧ wf (grid b') ∧
            (tiles (grid b) → tiles (grid b') ∧ (score b ≤ score b')%Z).
Proof.
  intros Hg. destruct (decide (lower d ∈ directions)) as [Hd|Hd].
  - destruct (decide (slid_grid (lower d) (grid b) = grid b)) as [Hfix|Hne].
    + exists b, (mkMoveResult false 0). rewrite move_unchanged by done.
      split; [done|]. split; [done|]. intros Ht. split; [done|lia].
    + rewrite move_changed by done.
      set (b1 := mkBoard _ _ _).
      destruct (spawn_total b1) as (b'&Hb'&Hwf&Hsc&Ht).
      { by apply wf_slid_grid. }
      rewrite Hb'. eexists _, _. split; [done|]. split; [done|].
      intros Htiles.
      destruct (slide_tiles (lower d) (grid b) (slid_grid (lower d) (grid b))
                  (slid_gain (lower d) (grid b))) as [Ht1 Hs1];
        [done..|by apply slide_lines|].
      split; [by apply Ht|]. rewrite Hsc. cbn. lia.
  - exists b, (mkMoveResult false 0). rewrite move_unrecognised by done.
    split; [done|]. split; [done|]. intros Ht. split; [done|lia].
Qed.

Lemma wf_empty_grid : wf empty_grid.
Proof. apply wf_explicit. Qed.

Lemma tiles_empty_grid : tiles empty_grid.
Proof. repeat constructor. Qed.

Lemma restart_init (b : Board R) : restart b = Board_init (rng b).
Proof. reflexivity. Qed.

Lemma init_total (rng0 : R) :
  ∃ b, Board_init rng0 = Some b ∧ wf (grid b) ∧ tiles (grid b) ∧ score b = 0%Z.
Proof.
  unfold Board_init.
  destruct (spawn_total (mkBoard rng0 empty_grid 0%Z)) as (b1&->&Hwf1&Hs1&Ht1).
  { apply wf_empty_grid. }
  destruct (spawn_total b1 Hwf1) as (b2&Hb2&Hwf2&Hs2&Ht2).
  exists b2. cbn [mbind option_bind]. split; [done|]. split; [done|].
  split; [apply Ht2, Ht1, tiles_empty_grid|]. by rewrite Hs2, Hs1.
Qed.

End Properties.

(** ** Game over detection *)

Lemma existsb_zero (g : list (list Z)) :
  existsb (λ row, bool_decide (0%Z ∈ row)) g = true ↔ has_empty g.
Proof.
  rewrite existsb_exists. unfold has_empty, cell. split.
  - intros (row&Hin&Hz). apply list_elem_of_In, list_elem_of_lookup in Hin as [r Hr].
    apply bool_decide_eq_true, list_elem_of_lookup in Hz as [c Hc].
    exists r, c. by rewrite Hr.
  - intros (r&c&Hrc). destruct (g !! r) as [row|] eqn:Hr; [|done].
    cbn in Hrc. exists row. split.
    + apply list_elem_of_In. by eapply list_elem_of_lookup_2.
    + apply bool_decide_eq_true. by eapply list_elem_of_lookup_2.
Qed.

Lemma neighbour_check (g : list (list Z)) (r c : nat) (v : Z)
    (P : Prop) `{!Decision P} :
  wf g → (P ↔ r < SIZE ∧ c < SIZE) →
  ∃ res,
    (if decide P then w ← cell g r c; Some (bool_decide (w = v))
     else Some false) = Some res ∧
    (res = true ↔ cell g r c = Some v).
Proof.
  intros Hg HP. destruct (decide P) as [Hin|Hout].
  - apply HP in Hin as [Hr Hc]. destruct (cell_wf g r c Hg Hr Hc) as [w ->].
    cbn [mbind option_bind]. eexists. split; [done|].
    rewrite bool_decide_eq_true. split; [by intros ->|by intros [= ->]].
  - exists false. split; [done|]. split; [done|].
    intros Hv%cell_Some_lt; [|done]. by apply HP in Hv.
Qed.

Lemma scan_adjacent_spec (g : list (list Z)) (cells : list (nat * nat)) :
  wf g → Forall (λ rc, rc ∈ all_cells) cells →
  ∃ res, scan_adjacent g cells = Some res ∧
         (res = true ↔ equal_neighbour g cells).
Proof.
  intros Hg. induction 1 as [|[r c] cells Hin _ (res&Hres&Hspec)].
  - exists false. split; [done|]. split; [done|].
    by intros (?&?&?&?%elem_of_nil&_).
  - apply all_cells_spec in Hin as [Hr Hc].
    destruct (cell_wf g r c Hg Hr Hc) as [v Hv].
    cbn [scan_adjacent fst snd]. rewrite Hv. cbn [mbind option_bind].
    destruct (neighbour_check g (r + 1) c v (r + 1 < SIZE) Hg)
      as (down&->&Hdown); [lia|].
    cbn [mbind option_bind]. destruct down.
    { exists true. split; [done|]. split; [|done]. intros _.
      exists r, c, v. split; [by left|]. split; [done|]. left. by apply Hdown. }
    destruct (neighbour_check g r (c + 1) v (c + 1 < SIZE) Hg)
      as (right&->&Hright); [lia|].
    cbn [mbind option_bind]. destruct right.
    { exists true. split; [done|]. split; [|done]. intros _.
      exists r, c, v. split; [by left|]. split; [done|]. right. by apply Hright. }
    exists res. split; [done|]. rewrite Hspec. split.
    + intros (r'&c'&v'&Hin&Hrest). exists r', c', v'. split; [by right|done].
    + intros (r'&c'&v'&Hin&Hv'&Hnb).
      apply elem_of_cons in Hin as [[= -> ->]|Hin]; [|by exists r', c', v'].
      rewrite Hv in Hv'. injection Hv' as <-.
      destruct Hnb as [Hd%Hdown|Hr'%Hright]; done.
Qed.

Lemma equal_neighbour_spec (g : list (list Z)) :
  wf g → ¬ has_empty g → equal_neighbour g all_cells ↔ adjacent_equal g.
Proof.
  intros Hg Hne. split.
  - intros (r&c&v&_&Hv&Hnb).
    assert (v ≠ 0%Z) as Hv0. { intros ->. apply Hne. by exists r, c. }
    destruct Hnb as [Hd|Hr].
    + exists (r, c), (r + 1, c), v. unfold adjacent. cbn.
      split; [right; lia|done].
    + exists (r, c), (r, c + 1), v. unfold adjacent. cbn.
      split; [left; lia|done].
  - intros ([r c]&[r' c']&v&Hadj&_&Hp&Hq). unfold adjacent in Hadj.
    cbn in Hadj, Hp, Hq.
    pose proof (cell_Some_lt g r c v Hg Hp) as [? ?].
    pose proof (cell_Some_lt g r' c' v Hg Hq) as [? ?].
    destruct Hadj as [[-> [<-|<-]]|[-> [<-|<-]]].
    + exists r', c, v. split; [by apply all_cells_spec|]. split; [done|by right].
    + exists r', c', v. split; [by apply all_cells_spec|]. split; [done|by right].
    + exists r, c', v. split; [by apply all_cells_spec|]. split; [done|by left].
    + exists r', c', v. split; [by apply all_cells_spec|]. split; [done|by left].
Qed.

Section GameOver.
Context {R : Type}.

Lemma has_moves_spec (b : Board R) :
  wf (grid b) →
  ∃ res, has_moves b = Some res ∧
         (res = true ↔ has_empty (grid b) ∨ adjacent_equal (grid b)).
Proof.
  intros Hg. unfold has_moves.
  destruct (existsb _ (grid b)) eqn:Hz.
  - exists true. split; [done|]. split; [|done]. intros _. left.
    by apply existsb_zero.
  - assert (¬ has_empty (grid b)) as Hne.
    { intros He%existsb_zero. congruence. }
    destruct (scan_adjacent_spec (grid b) all_cells Hg) as (res&Hres&Hspec).
    { by apply Forall_forall. }
    exists res. split; [done|]. rewrite Hspec, equal_neighbour_spec by done.
    tauto.
Qed.

End GameOver.

(** * The claims *)

(** Membership of a literal direction. *)
Ltac in_directions :=
  try change (lower "a") with "a"; try change (lower "d") with "d";
  try change (lower "w") with "w"; try change (lower "s") with "s";
  unfold directions; rewrite !elem_of_cons; auto 6.

(** ** C1: a single merge per tile and per move *)

Section SingleMerge.
Context {R : Type} `{RandomSource R}.

Lemma slid_row_left (g : list (list Z)) (i : nat) (row : list Z) :
  g !! i = Some row → slid_grid "a" g !! i = Some (process row).
Proof.
  intros Hrow. unfold slid_grid.
  change (unlines "a" (process <$> lines "a" g)) with (process <$> g).
  by rewrite list_lookup_fmap, Hrow.
Qed.

(** The slide of a recognised direction, line by line: every line of the
    result, read in move order, is the single-pass merge of the line it
    comes from. *)
Lemma slide_single_pass (d : string) (g : list (list Z)) :
  wf g → d ∈ directions →
  ∃ g' s,
    slide d g = Some (g', s) ∧
    lines d g' = process <$> lines d g ∧
    Forall2 (λ arr out,
               single_pass (compact arr) (compact out) ∧
               out = pad (compact out))
            (lines d g) (lines d g').
Proof.
  intros Hg Hd. eexists _, _. split; [by apply slide_lines|].
  rewrite lines_unlines; [|by apply wf_process, wf_lines|done]. split; [done|].
  apply Forall2_fmap_r, Forall_Forall2_diag, Forall_forall. intros arr _.
  unfold compose. cbv beta. rewrite compact_process. split; [apply merged_of_single_pass|done].
Qed.

(** C1, as amended.  In each of the four directions, every line that
    [move] processes is merged in a single pass: the tiles of the line
    after the slide are cut from the tiles of the line before it into
    blocks of one tile, copied, or of two equal neighbours, merged into
    one tile of twice the value, so that no merged tile merges again; the
    line is these tiles followed by empty cells.  The grid [move] returns
    is the grid of these lines, or that grid with one new tile, a 2 or a
    4, in a cell the slide left empty.  On a grid whose first row is
    [2,2,2,0] the slide to the left, before the spawn, leaves [4,2,0,0]
    in the first row; after the spawn that [move] then performs, the
    first row still starts with 4 and 2, and at most one of its two empty
    cells holds the new tile. *)
Theorem single_merge_per_move :
  (∀ (d : string) (g : list (list Z)),
     wf g → d ∈ directions →
     ∃ g' s,
       slide d g = Some (g', s) ∧
       lines d g' = process <$> lines d g ∧
       Forall2 (λ arr out,
                  single_pass (compact arr) (compact out) ∧
                  out = pad (compact out))
               (lines d g) (lines d g')) ∧
  (∀ (b : Board R) (d : string),
     wf (grid b) → lower d ∈ directions →
     ∃ b' res g1,
       move b d = Some (b', res) ∧
       slide (lower d) (grid b) = Some (g1, score_gain res) ∧
       Forall2 (λ arr out,
                  single_pass (compact arr) (compact out) ∧
                  out = pad (compact out))
               (lines (lower d) (grid b)) (lines (lower d) g1) ∧
       (grid b' = g1 ∨
        ∃ r c v,
          cell g1 r c = Some 0%Z ∧ (v = 2 ∨ v = 4)%Z ∧
          cell (grid b') r c = Some v ∧
          ∀ r' c', (r', c') ≠ (r, c) →
                   cell (grid b') r' c' = cell g1 r' c')) ∧
  (∀ arr : list Z,
     single_pass (compact arr) (merged_of (compact arr)) ∧
     process arr = pad (merged_of (compact arr))) ∧
  (∀ g : list (list Z),
     wf g → g !! 0 = Some [2; 2; 2; 0]%Z →
     ∃ g' s, slide "a" g = Some (g', s) ∧ g' !! 0 = Some [4; 2; 0; 0]%Z) ∧
  (∀ b : Board R,
     wf (grid b) → grid b !! 0 = Some [2; 2; 2; 0]%Z →
     ∃ b' res x y,
       move b "a" = Some (b', res) ∧ moved res = true ∧
       grid b' !! 0 = Some [4; 2; x; y]%Z ∧
       ((x = 0 ∧ y = 0) ∨ ((x = 2 ∨ x = 4) ∧ y = 0) ∨
        (x = 0 ∧ (y = 2 ∨ y = 4)))%Z).
Proof.
  split; [|split; [|split; [|split]]].
  - apply slide_single_pass.
  - intros b d Hg Hd.
    destruct (slide_single_pass (lower d) (grid b) Hg Hd) as (g1&s&Hslide&_&Hpass).
    pose proof (slide_lines (lower d) (grid b) Hg Hd) as Hlines.
    fold (slid_grid (lower d) (grid b)) (slid_gain (lower d) (grid b)) in Hlines.
    rewrite Hlines in Hslide. injection Hslide as <- <-.
    destruct (decide (slid_grid (lower d) (grid b) = grid b)) as [Hsame|Hdiff].
    + rewrite (move_unchanged b d Hg Hd Hsame).
      exists b, (mkMoveResult false 0), (slid_grid (lower d) (grid b)).
      split; [done|]. cbn [score_gain]. split.
      { rewrite Hlines. do 2 f_equal. rewrite Hsame in Hlines.
        by apply (slide_fixed_gain (lower d) (grid b)). }
      split; [done|]. by left.
    + rewrite (move_changed b d Hg Hd Hdiff). set (b1 := mkBoard _ _ _).
      assert (wf (grid b1)) as Hg1 by (by apply wf_slid_grid).
      destruct (empties_spec (grid b1) Hg1) as (es&Hes&Hspec).
      destruct (decide (es = [])) as [->|Hne].
      * rewrite spawn_full by done. cbn [mbind option_bind].
        eexists _, _, _. split; [done|]. split; [done|]. split; [done|].
        by left.
      * destruct (spawn_some b1 es Hg1 Hes Hne Hspec) as (r&c&row&_&Hr&Hc&->).
        cbn [mbind option_bind]. set (v := spawn_value _ _).
        pose proof (lookup_lt_Some _ _ _ Hc) as Hclt.
        eexists _, _, _. split; [done|]. split; [done|]. split; [done|].
        right. exists r, c, v. cbn [grid]. split.
        { unfold cell. cbn [grid b1] in Hr. by rewrite Hr. }
        split. { unfold v, spawn_value. destruct (float_lt _ _); auto. }
        split.
        { rewrite (cell_insert _ _ _ _ _ _ _ Hr Hclt). by rewrite decide_True. }
        intros r' c' Hother. rewrite (cell_insert _ _ _ _ _ _ _ Hr Hclt).
        rewrite decide_False; [done|]. intros [-> ->]. by apply Hother.
  - intros arr. split; [apply merged_of_single_pass|done].
  - intros g Hg Hrow. eexists _, _. split; [apply slide_lines; [done|in_directions]|].
    fold (slid_grid "a" g). by rewrite (slid_row_left g 0 _ Hrow).
  - intros b Hg Hrow.
    assert (lower "a" ∈ directions) as Hd by in_directions.
    pose proof (slid_row_left _ _ _ Hrow) as Hslid.
    change (process [2; 2; 2; 0]%Z) with [4; 2; 0; 0]%Z in Hslid.
    rewrite move_changed; [|done..|]; cycle 1.
    { change (lower "a") with "a". intros Heq. rewrite Heq, Hrow in Hslid.
      discriminate. }
    change (lower "a") with "a". set (b1 := mkBoard _ _ _).
    assert (wf (grid b1)) as Hg1 by (apply wf_slid_grid; [done|in_directions]).
    destruct (empties_spec (grid b1) Hg1) as (es&Hes&Hspec).
    destruct (decide (es = [])) as [->|Hne].
    { rewrite spawn_full by done. exists b1, (mkMoveResult true (slid_gain "a" (grid b))), 0%Z, 0%Z.
      split; [done|]. split; [done|]. split; [done|]. by left. }
    destruct (spawn_some b1 es Hg1 Hes Hne Hspec) as (r&c&row&_&Hr&Hc&->).
    cbn [mbind option_bind]. set (v := spawn_value _ _).
    assert (v = 2 ∨ v = 4)%Z as Hv.
    { unfold v, spawn_value. destruct (float_lt _ _); auto. }
    destruct (decide (r = 0)) as [->|Hr0].
    + cbn [grid b1] in Hr. rewrite Hslid in Hr. injection Hr as <-.
      destruct c as [|[|[|[|c]]]]; try discriminate.
      * eexists _, _, v, 0%Z. split; [done|]. split; [done|]. cbn [grid].
        rewrite list_lookup_insert_eq by (by eapply lookup_lt_Some).
        split; [done|]. right. by left.
      * eexists _, _, 0%Z, v. split; [done|]. split; [done|]. cbn [grid].
        rewrite list_lookup_insert_eq by (by eapply lookup_lt_Some).
        split; [done|]. right. by right.
    + eexists _, _, 0%Z, 0%Z. split; [done|]. split; [done|]. cbn [grid].
      rewrite list_lookup_insert_ne by done. split; [done|]. by left.
Qed.

End SingleMerge.

(** C1, witness: a slide to the right, on the board of the test
    [test_single_merge_per_move] mirrored, with a pair and its double in
    the second row. *)
Lemma single_merge_per_move_witness :
  let g := [[0; 2; 2; 2]; [0; 4; 2; 2]; [0; 0; 0; 0]; [0; 0; 0; 0]]%Z in
  ∃ g' s,
    slide "d" g = Some (g', s) ∧
    lines "d" g' = process <$> lines "d" g ∧
    Forall2 (λ arr out,
               single_pass (compact arr) (compact out) ∧
               out = pad (compact out))
            (lines "d" g) (lines "d" g').
Proof.
  intros g. apply (proj1 (single_merge_per_move (R := Z)) "d" g).
  - apply wf_explicit.
  - in_directions.
Defined.

(** C1 as stated fails.  After the slide the grid has fourteen empty cells,
    the first of them the third cell of the first row.  From the state 0
    of the source the choice among fourteen is index 0 and the float drawn
    next is not below [0.10]: the spawn writes a 2 there, and the first
    row reads [4,2,2,0] when [move] returns. *)
Lemma single_merge_counterexample :
  let b := mkBoard (from_seed 0)
             [[2; 2; 2; 0]; [0; 0; 0; 0]; [0; 0; 0; 0]; [0; 0; 0; 0]]%Z 0%Z in
  (randbelow (rng b) 14).1 = 0 ∧
  float_lt (random (randbelow (rng b) 14).2).1 p10 = false ∧
  ∃ b' res,
    move b "a" = Some (b', res) ∧
    grid b' = [[4; 2; 2; 0]; [0; 0; 0; 0]; [0; 0; 0; 0]; [0; 0; 0; 0]]%Z ∧
    grid b' !! 0 ≠ Some [4; 2; 0; 0]%Z.
Proof.
  split; [reflexivity|]. split; [reflexivity|].
  eexists _, _. split; [vm_compute; reflexivity|]. split; [reflexivity|].
  discriminate.
Qed.

(** ** C2: a move that changes nothing *)

Section NoChange.
Context {R : Type} `{RandomSource R}.

Lemma move_not_moved (b b' : Board R) (d : string) (res : MoveResult) :
  wf (grid b) → move b d = Some (b', res) → moved res = false →
  b' = b ∧ score_gain res = 0%Z.
Proof.
  intros Hg Hmove Hres. destruct (decide (lower d ∈ directions)) as [Hd|Hd].
  - destruct (decide (slid_grid (lower d) (grid b) = grid b)) as [Hfix|Hne].
    + rewrite move_unchanged in Hmove by done. by injection Hmove as <- <-.
    + rewrite move_changed in Hmove by done.
      destruct (_spawn_random_tile _) as [b1|]; [|done].
      injection Hmove as <- <-. done.
  - rewrite move_unrecognised in Hmove by done. by injection Hmove as <- <-.
Qed.

(** C2.  For a well-formed grid and a recognised direction: when the slide
    gives back a grid equal to the grid before the move, [move] returns the
    board as it was, grid, score and state of the random source (no tile is
    spawned, nothing is drawn), and reports [moved = false].  So does every
    call that reports [moved = false].  In particular a move to the left on
    the grid whose only non-zero row is [2,4,8,16] changes nothing. *)
Theorem move_without_change_is_identity :
  (∀ (b : Board R) (d : string) (g' : list (list Z)) (s : Z),
     wf (grid b) → lower d ∈ directions →
     slide (lower d) (grid b) = Some (g', s) → g' = grid b →
     ∃ res, move b d = Some (b, res) ∧ moved res = false) ∧
  (∀ (b b' : Board R) (d : string) (res : MoveResult),
     wf (grid b) → move b d = Some (b', res) → moved res = false → b' = b) ∧
  (∀ (rng0 : R) (sc : Z),
     let b := mkBoard rng0
                [[2; 4; 8; 16]; [0; 0; 0; 0]; [0; 0; 0; 0]; [0; 0; 0; 0]]%Z sc in
     move b "a" = Some (b, mkMoveResult false 0)).
Proof.
  split; [|split].
  - intros b d g' s Hg Hd Hs ->. exists (mkMoveResult false 0).
    split; [|done]. apply move_unchanged; [done..|].
    rewrite slide_lines in Hs by done. by injection Hs as Hs _.
  - intros b b' d res Hg Hmove Hres.
    by destruct (move_not_moved b b' d res Hg Hmove Hres).
  - intros rng0 sc b. apply move_unchanged; [apply wf_explicit|in_directions|].
    reflexivity.
Qed.

End NoChange.

(** C2, witness: the board of the test [test_no_spawn_on_illegal_move]. *)
Lemma move_without_change_is_identity_witness :
  let b := mkBoard (from_seed 1)
             [[2; 4; 8; 16]; [0; 0; 0; 0]; [0; 0; 0; 0]; [0; 0; 0; 0]]%Z 0%Z in
  ∃ res, move b "a" = Some (b, res) ∧ moved res = false.
Proof.
  intros b.
  apply (proj1 (move_without_change_is_identity (R := Z)) b "a" (grid b) 0%Z).
  - apply wf_explicit.
  - in_directions.
  - reflexivity.
  - reflexivity.
Defined.

(** ** C10: no change, no gain *)

Section NoGain.
Context {R : Type} `{RandomSource R}.

(** C10.  On a well-formed grid, for every direction string: a call of
    [move] that reports [moved = false] reports [score_gain = 0].  The
    reason: a line in which a merge happens comes back with fewer non-zero
    cells than it had. *)
Theorem unmoved_scores_nothing :
  (∀ (b b' : Board R) (d : string) (res : MoveResult),
     wf (grid b) → move b d = Some (b', res) → moved res = false →
     score_gain res = 0%Z) ∧
  (∀ arr : list Z,
     merge_events (compact arr) ≠ [] →
     length (compact (process arr)) < length (compact arr)).
Proof.
  split.
  - intros b b' d res Hg Hmove Hres.
    by destruct (move_not_moved b b' d res Hg Hmove Hres).
  - intros arr Hev. rewrite compact_process.
    by destruct (merged_of_no_event (compact arr)) as [[? _]|?].
Qed.

End NoGain.

(** C10, witness: a move up on a board with one tile in the top row. *)
Lemma unmoved_scores_nothing_witness :
  let b := mkBoard (from_seed 1)
             [[2; 0; 0; 0]; [0; 0; 0; 0]; [0; 0; 0; 0]; [0; 0; 0; 0]]%Z 0%Z in
  score_gain (mkMoveResult false 0) = 0%Z.
Proof.
  intros b.
  apply (proj1 (unmoved_scores_nothing (R := Z)) b b "w").
  - apply wf_explicit.
  - reflexivity.
  - reflexivity.
Defined.

(** ** C7: an unrecognised direction *)

Section Unrecognised.
Context {R : Type} `{RandomSource R}.

(** C7.  A direction that is not one of the four letters, in either case,
    makes [move] return the board as it was with [moved = false] and
    [score_gain = 0]; there is no failure, whatever the grid.  A recognised
    direction whose slide changes nothing returns exactly the same. *)
Theorem unrecognised_direction_is_noop :
  (∀ (b : Board R) (d : string),
     lower d ∉ directions → move b d = Some (b, mkMoveResult false 0)) ∧
  (∀ (b : Board R) (d d' : string),
     wf (grid b) → lower d ∉ directions → lower d' ∈ directions →
     slid_grid (lower d') (grid b) = grid b →
     move b d' = move b d).
Proof.
  split.
  - apply move_unrecognised.
  - intros b d d' Hg Hd Hd' Hfix.
    by rewrite move_unchanged, move_unrecognised.
Qed.

End Unrecognised.

(** C7, witness: the letter [x] against a move to the left that is stuck. *)
Lemma unrecognised_direction_is_noop_witness :
  let b := mkBoard (from_seed 1)
             [[2; 4; 8; 16]; [0; 0; 0; 0]; [0; 0; 0; 0]; [0; 0; 0; 0]]%Z 7%Z in
  move b "x" = Some (b, mkMoveResult false 0) ∧ move b "a" = move b "x".
Proof.
  intros b. split.
  - apply (proj1 (unrecognised_direction_is_noop (R := Z)) b "x").
    change (lower "x") with "x". unfold directions.
    rewrite !elem_of_cons, elem_of_nil.
    intros [?|[?|[?|[?|[]]]]]; discriminate.
  - apply (proj2 (unrecognised_direction_is_noop (R := Z)) b "x" "a").
    + apply wf_explicit.
    + change (lower "x") with "x". unfold directions.
      rewrite !elem_of_cons, elem_of_nil.
      intros [?|[?|[?|[?|[]]]]]; discriminate.
    + in_directions.
    + reflexivity.
Defined.

(** ** C4: [has_moves] *)

Section HasMoves.
Context {R : Type}.

(** C4.  On a well-formed grid [has_moves] answers, and it answers [True]
    exactly when some cell is empty or two cells adjacent in a row or in a
    column hold the same non-zero value.  It is a function of the grid
    alone and returns only its answer: no state changes.  On the full
    checkerboard of 2 and 4 it answers [False]. *)
Theorem has_moves_correct :
  (∀ b : Board R,
     wf (grid b) →
     ∃ res, has_moves b = Some res ∧
            (res = true ↔ has_empty (grid b) ∨ adjacent_equal (grid b))) ∧
  (∀ b1 b2 : Board R, grid b1 = grid b2 → has_moves b1 = has_moves b2) ∧
  (∀ (rng0 : R) (sc : Z),
     has_moves (mkBoard rng0
        [[2; 4; 2; 4]; [4; 2; 4; 2]; [2; 4; 2; 4]; [4; 2; 4; 2]]%Z sc)
     = Some false).
Proof.
  split; [|split].
  - apply has_moves_spec.
  - intros b1 b2 Hgrid. unfold has_moves. by rewrite Hgrid.
  - intros rng0 sc. reflexivity.
Qed.

End HasMoves.

(** C4, witness: the board of the test [test_game_over_detection]. *)
Lemma has_moves_correct_witness :
  let b := mkBoard (from_seed 0)
             [[2; 4; 2; 4]; [4; 2; 4; 2]; [2; 4; 2; 4]; [4; 2; 4; 2]]%Z 0%Z in
  ∃ res, has_moves b = Some res ∧
         (res = true ↔ has_empty (grid b) ∨ adjacent_equal (grid b)).
Proof.
  intros b. apply (proj1 (has_moves_correct (R := Z)) b). apply wf_explicit.
Defined.

(** ** C8: left and right moves mirror each other *)

Lemma wf_mirror (g : list (list Z)) : wf g → wf (mirror g).
Proof.
  intros (a0&a1&a2&a3&b0&b1&b2&b3&c0&c1&c2&c3&d0&d1&d2&d3&->)%wf_cells.
  apply wf_explicit.
Qed.

(** C8.  On a well-formed grid, sliding to the right and then mirroring
    gives the grid that mirroring and then sliding to the left gives, with
    the same score gain; both slides succeed.  The slide is the
    transformation of [move] before any spawn. *)
Theorem right_is_mirrored_left (g : list (list Z)) :
  wf g →
  ∃ g' s, slide "d" g = Some (g', s) ∧ slide "a" (mirror g) = Some (mirror g', s).
Proof.
  intros Hg. pose proof (wf_mirror g Hg) as Hm.
  rewrite !slide_lines by (done || in_directions).
  eexists _, _. split; [reflexivity|]. f_equal. f_equal.
  change (unlines "a" (process <$> lines "a" (mirror g)))
    with (process <$> mirror g).
  change (unlines "d" (process <$> lines "d" g))
    with (reverse <$> (process <$> mirror g)).
  unfold mirror. rewrite <- (list_fmap_compose _ reverse (_ <$> _)).
  rewrite <- (list_fmap_id (process <$> _)) at 1.
  apply list_fmap_ext. intros i l _. cbn. by rewrite reverse_involutive.
Qed.

(** C8, witness: a grid with a merge in every row. *)
Lemma right_is_mirrored_left_witness :
  let g := [[2; 2; 4; 0]; [0; 4; 4; 4]; [2; 0; 0; 2]; [8; 8; 8; 8]]%Z in
  ∃ g' s, slide "d" g = Some (g', s) ∧ slide "a" (mirror g) = Some (mirror g', s).
Proof.
  intros g. apply (right_is_mirrored_left g). apply wf_explicit.
Defined.

(** ** C6: the spawn *)

Section Spawn.
Context {R : Type} `{RandomSource R}.





End Spawn.


(** ** Sessions: sequences of calls on one board *)

Lemma sum_Z_app (l1 l2 : list Z) : sum_Z (l1 ++ l2) = (sum_Z l1 + sum_Z l2)%Z.
Proof.
  unfold sum_Z. induction l1 as [|x l1 IH]; [done|].
  cbn [app foldr]. rewrite IH. lia.
Qed.

Lemma slid_gain_events (d : string) (g : list (list Z)) :
  d ∈ directions → slid_gain d g = sum_Z (move_events d g).
Proof.
  intros Hd. unfold slid_gain, move_events. rewrite decide_True by done.
  induction (lines d g) as [|l ls IH]; [done|].
  cbn [fmap list_fmap concat]. rewrite sum_Z_app, <- IH.
  unfold line_gain, sum_Z at 1. cbn [foldr]. by rewrite gain_of_events.
Qed.

Lemma tiles_cell (g : list (list Z)) (r c : nat) (v : Z) :
  tiles g → cell g r c = Some v → tile v.
Proof.
  intros Ht Hv. unfold cell in Hv.
  destruct (g !! r) as [row|] eqn:Hrow; [|done]. cbn in Hv.
  unfold tiles in Ht. rewrite Forall_forall in Ht.
  assert (Forall tile row) as Hr by (by eapply Ht, list_elem_of_lookup_2).
  rewrite Forall_forall in Hr. by eapply Hr, list_elem_of_lookup_2.
Qed.

Section Sessions.
Context {R : Type} `{RandomSource R}.

Lemma move_step (b : Board R) (d : string) :
  invariant b →
  ∃ b' res,
    move b d = Some (b', res) ∧
    score_gain res = sum_Z (move_events (lower d) (grid b)) ∧
    score b' = (score b + score_gain res)%Z ∧
    (score b ≤ score b')%Z ∧
    invariant b'.
Proof.
  intros [Hg Ht]. destruct (decide (lower d ∈ directions)) as [Hd|Hd].
  - pose proof (slid_gain_events (lower d) (grid b) Hd) as Hev.
    destruct (slide_tiles (lower d) (grid b) (slid_grid (lower d) (grid b))
                (slid_gain (lower d) (grid b))) as [Ht1 Hs1];
      [done..|by apply slide_lines|].
    destruct (decide (slid_grid (lower d) (grid b) = grid b)) as [Hfix|Hne].
    + exists b, (mkMoveResult false 0). rewrite move_unchanged by done.
      assert (slid_gain (lower d) (grid b) = 0%Z) as Hgain.
      { apply (slide_fixed_gain (lower d) (grid b)); [done..|].
        rewrite slide_lines by done. fold (slid_grid (lower d) (grid b)).
        by rewrite Hfix. }
      cbn [score_gain]. rewrite <- Hev, Hgain.
      split; [done|]. split; [done|]. split; [lia|]. split; [lia|done].
    + rewrite move_changed by done. set (b1 := mkBoard _ _ _).
      destruct (spawn_total b1) as (b'&Hb'&Hwf&Hsc&Htl).
      { by apply wf_slid_grid. }
      rewrite Hb'. eexists _, _. split; [done|]. cbn [score_gain].
      split; [done|]. rewrite Hsc. cbn [score b1].
      split; [done|]. split; [lia|]. split; [done|by apply Htl].
  - exists b, (mkMoveResult false 0). rewrite move_unrecognised by done.
    unfold move_events. rewrite decide_False by done.
    split; [done|]. split; [done|]. cbn [score_gain].
    split; [lia|]. split; [lia|done].
Qed.

Lemma restart_step (b : Board R) :
  ∃ b', restart b = Some b' ∧ score b' = 0%Z ∧ invariant b'.
Proof.
  rewrite restart_init. destruct (init_total (rng b)) as (b'&?&?&?&?).
  by exists b'.
Qed.

Lemma step_invariant (b : Board R) (c : call) :
  invariant b → ∃ b', step b c = Some b' ∧ invariant b'.
Proof.
  intros Hb. destruct c as [d|]; cbn [step].
  - destruct (move_step b d Hb) as (b'&res&->&_&_&_&Hb'). by exists b'.
  - destruct (restart_step b) as (b'&->&_&Hb'). by exists b'.
Qed.

Lemma reachable_invariant (b : Board R) : reachable b → invariant b.
Proof.
  induction 1 as [rng0 b Hinit|b c b' _ IH Hstep].
  - destruct (init_total rng0) as (b0&Hb0&Hwf&Ht&_).
    rewrite Hb0 in Hinit. injection Hinit as <-. by split.
  - destruct (step_invariant b c IH) as (b0&Hb0&Hinv).
    rewrite Hb0 in Hstep. by injection Hstep as <-.
Qed.

Lemma run_total (b : Board R) (calls : list call) :
  invariant b → ∃ bs, run b calls = Some bs ∧ length bs = length calls.
Proof.
  revert b. induction calls as [|c calls IH]; intros b Hb.
  - by exists [].
  - destruct (step_invariant b c Hb) as (b'&Hb'&Hinv).
    destruct (IH b' Hinv) as (bs&Hbs&Hlen).
    exists (b' :: bs). cbn [run]. rewrite Hb'. cbn [mbind option_bind].
    rewrite Hbs. cbn. by rewrite Hlen.
Qed.

End Sessions.

(** ** C9: the invariant of the grid *)

Lemma tile_power (v : Z) :
  tile v →
  (0 ≤ v)%Z ∧ (v ≠ 0%Z → ∃ k : nat, 1 ≤ k ∧ v = (2 ^ Z.of_nat k)%Z).
Proof.
  intros Hv. split; [by apply tile_nonneg|]. intros Hne.
  destruct Hv as [->|[k ->]]; [done|]. exists (S k). split; [lia|done].
Qed.

Section Invariant.
Context {R : Type} `{RandomSource R}.

(** C9.  Every board reachable from [Board(rng)] by calls of [move] and
    [restart] has a grid of four rows of four cells, each cell a
    non-negative integer that is 0 or a power of two 2^k with k >= 1.  The
    constructor establishes this invariant, [move] (for any direction
    string) and [restart] never fail on a board that satisfies it and
    return a board that satisfies it. *)
Theorem grid_invariant :
  (∀ b : Board R,
     reachable b →
     wf (grid b) ∧
     ∀ r c v, cell (grid b) r c = Some v →
              (0 ≤ v)%Z ∧
              (v ≠ 0%Z → ∃ k : nat, 1 ≤ k ∧ v = (2 ^ Z.of_nat k)%Z)) ∧
  (∀ rng0 : R, ∃ b, Board_init rng0 = Some b ∧ invariant b) ∧
  (∀ (b : Board R) (d : string),
     invariant b → ∃ b' res, move b d = Some (b', res) ∧ invariant b') ∧
  (∀ b : Board R, invariant b → ∃ b', restart b = Some b' ∧ invariant b').
Proof.
  split; [|split; [|split]].
  - intros b [Hwf Ht]%reachable_invariant. split; [done|].
    intros r c v Hv. by eapply tile_power, tiles_cell.
  - intros rng0. destruct (init_total rng0) as (b&?&?&?&_). by exists b.
  - intros b d Hb. destruct (move_step b d Hb) as (b'&res&?&_&_&_&?).
    by exists b', res.
  - intros b _. destruct (restart_step b) as (b'&?&_&?). by exists b'.
Qed.

End Invariant.

(** C9, witness: the board built from seed 123, after a move up. *)
Lemma grid_invariant_witness :
  let b := mkBoard 217932077%Z
             [[0; 0; 2; 2]; [0; 0; 2; 0]; [0; 0; 0; 0]; [0; 0; 0; 0]]%Z 0%Z in
  wf (grid b) ∧
  ∀ r c v, cell (grid b) r c = Some v →
           (0 ≤ v)%Z ∧ (v ≠ 0%Z → ∃ k : nat, 1 ≤ k ∧ v = (2 ^ Z.of_nat k)%Z).
Proof.
  intros b. apply (proj1 (grid_invariant (R := Z)) b).
  apply (reach_step
           (mkBoard 864299351%Z
              [[0; 0; 0; 0]; [0; 0; 0; 2]; [0; 0; 0; 0]; [0; 0; 2; 0]]%Z 0%Z)
           (Move "W")).
  - apply (reach_init (from_seed 123)). vm_compute. reflexivity.
  - vm_compute. reflexivity.
Defined.

(** ** C3: the score *)

Section Score.
Context {R : Type} `{RandomSource R}.

Lemma final_cons (b : Board R) (st : Board R * MoveResult)
    (trace : list (Board R * MoveResult)) :
  final b (st :: trace) = final st.1 trace.
Proof.
  unfold final. destruct trace as [|p trace]; [reflexivity|].
  change (last (st :: p :: trace)) with (last (p :: trace)).
  destruct (last (p :: trace)) eqn:Hl; [reflexivity|].
  by apply last_None in Hl.
Qed.

Lemma game_spec (b : Board R) (ds : list string) :
  invariant b →
  ∃ trace,
    game b ds = Some trace ∧ length trace = length ds ∧
    score (final b trace) = (score b + sum_Z (game_events b ds))%Z ∧
    Sorted Z.le (scores b trace).
Proof.
  revert b. induction ds as [|d ds IH]; intros b Hb.
  - exists []. split; [done|]. split; [done|]. split.
    + unfold final, sum_Z. cbn. lia.
    + unfold scores. cbn [fmap list_fmap]. repeat constructor.
  - destruct (move_step b d Hb) as (b'&res&Hmove&Hgain&Hsc&Hle&Hb').
    destruct (IH b' Hb') as (trace&Htrace&Hlen&Hfinal&Hsorted).
    exists ((b', res) :: trace). cbn [game game_events].
    rewrite Hmove. cbn [mbind option_bind fst]. rewrite Htrace.
    split; [done|]. split; [by cbn; rewrite Hlen|]. split.
    + rewrite final_cons, sum_Z_app. cbn [fst]. rewrite Hfinal, Hsc, Hgain. lia.
    + unfold scores in *. cbn [fmap list_fmap fst]. constructor; [done|].
      by constructor.
Qed.

(** C3.  On a board that satisfies the invariant: the [score_gain] of a
    move is the sum of the merge events of that move, each event being the
    value of the merged tile (twice the value of the two tiles merged);
    the move adds exactly this to the score, which never decreases.  Over
    a game, any sequence of moves, the final score is the score at its
    start plus the sum of all merge events of the game, and the scores
    seen are non-decreasing.  A game starts, after the constructor or a
    restart, with score 0: the score is then the sum of all merge events
    since. *)
Theorem score_accounting :
  (∀ (b : Board R) (d : string),
     invariant b →
     ∃ b' res,
       move b d = Some (b', res) ∧
       score_gain res = sum_Z (move_events (lower d) (grid b)) ∧
       score b' = (score b + score_gain res)%Z ∧
       (score b ≤ score b')%Z) ∧
  (∀ (b : Board R) (ds : list string),
     invariant b →
     ∃ trace,
       game b ds = Some trace ∧ length trace = length ds ∧
       score (final b trace) = (score b + sum_Z (game_events b ds))%Z ∧
       Sorted Z.le (scores b trace)) ∧
  (∀ b : Board R,
     ∃ b', restart b = Some b' ∧ score b' = 0%Z ∧ invariant b') ∧
  (∀ rng0 : R,
     ∃ b, Board_init rng0 = Some b ∧ score b = 0%Z ∧ invariant b).
Proof.
  split; [|split; [|split]].
  - intros b d Hb. destruct (move_step b d Hb) as (b'&res&?&?&?&?&_).
    by exists b', res.
  - apply game_spec.
  - apply restart_step.
  - intros rng0. destruct (init_total rng0) as (b&?&?&?&?). by exists b.
Qed.

End Score.

(** C3, witness: three moves on a board with two pairs in its first row. *)
Lemma score_accounting_witness :
  let b := mkBoard (from_seed 5)
             [[2; 2; 4; 4]; [0; 0; 0; 0]; [0; 0; 0; 0]; [0; 0; 0; 0]]%Z 0%Z in
  let ds := ["a"; "a"; "a"] in
  ∃ trace,
    game b ds = Some trace ∧ length trace = length ds ∧
    score (final b trace) = (score b + sum_Z (game_events b ds))%Z ∧
    Sorted Z.le (scores b trace).
Proof.
  intros b ds.
  apply (proj1 (proj2 (score_accounting (R := Z))) b ds).
  split; [apply wf_explicit|]. unfold tiles, b. cbn [grid].
  repeat match goal with
         | |- Forall _ (_ :: _) => constructor
         | |- Forall _ [] => constructor
         end.
  all: first [left; reflexivity | right; exists 0; reflexivity
             | right; exists 1; reflexivity].
Defined.

(** ** C5: determinism under a seed *)

Lemma empties_after_first_tile (r c : nat) (v : Z) :
  (r, c) ∈ all_cells → (v = 2 ∨ v = 4)%Z →
  ∃ es, empties (<[r := <[c := v]> (replicate SIZE 0%Z)]> empty_grid) = Some es ∧
        length es = 15.
Proof.
  intros [Hr Hc]%all_cells_spec Hv. unfold SIZE in Hr, Hc.
  destruct r as [|[|[|[|r]]]]; [| | | |lia];
    (destruct c as [|[|[|[|c]]]]; [| | | |lia]);
    destruct Hv as [-> | ->];
    (eexists; split; [vm_compute; reflexivity|reflexivity]).
Qed.

Section Determinism.
Context {R : Type} `{RandomSource R}.

Lemma first_spawn (rng0 : R) (sc : Z) :
  ∃ r c,
    (r, c) ∈ all_cells ∧
    _spawn_random_tile (mkBoard rng0 empty_grid sc) =
      Some (mkBoard (spawn_rng rng0 16)
              (<[r := <[c := spawn_value rng0 16]> (replicate SIZE 0%Z)]> empty_grid)
              sc).
Proof.
  set (b := mkBoard rng0 empty_grid sc).
  destruct (empties_spec (grid b) wf_empty_grid) as (es&Hes&Hspec).
  change (empties (grid b)) with (Some all_cells) in Hes.
  injection Hes as <-.
  destruct (spawn_some b all_cells wf_empty_grid eq_refl) as (r&c&row&Hrc&Hrow&_&Hsp);
    [done|done|].
  exists r, c. split; [by eapply list_elem_of_lookup_2|].
  change (grid b) with empty_grid in Hrow. unfold empty_grid in Hrow.
  apply lookup_replicate in Hrow as [-> _]. exact Hsp.
Qed.

(** A restart leaves the source where two spawns take it from the state it
    was in: sixteen empty cells for the first, fifteen for the second. *)
Lemma restart_rng (b : Board R) :
  ∃ b', restart b = Some b' ∧ score b' = 0%Z ∧
        rng b' = spawn_rng (spawn_rng (rng b) 16) 15.
Proof.
  unfold restart. destruct (first_spawn (rng b) 0%Z) as (r&c&Hrc&->).
  cbn [mbind option_bind]. set (b1 := mkBoard _ _ _).
  assert (spawn_value (rng b) 16 = 2 ∨ spawn_value (rng b) 16 = 4)%Z as Hv.
  { unfold spawn_value. destruct (float_lt _ _); auto. }
  destruct (empties_after_first_tile r c _ Hrc Hv) as (es&Hes&Hlen).
  assert (wf (grid b1)) as Hwf.
  { apply wf_insert; [apply wf_empty_grid|].
    apply all_cells_spec in Hrc as [Hr _]. by apply lookup_replicate. }
  destruct (empties_spec (grid b1) Hwf) as (es'&Hes'&Hspec).
  assert (es' = es) as -> by (cbn [grid b1] in Hes'; congruence).
  destruct (spawn_some b1 es Hwf Hes') as (?&?&?&_&_&_&->);
    [by intros ->|done|].
  eexists. split; [done|]. cbn [score rng b1]. by rewrite Hlen.
Qed.

(** C5.  Two sessions, each building its own source from the seed with
    [random.Random(seed)] and its own board, and driven by the same calls
    of [move] and [restart], run to the end and show the same grid and the
    same score after the constructor and after every call.  A restart is
    the constructor run on the source the board already holds: it resets
    the score to 0 and leaves the source in the state that the two spawns
    reach from the current state, never in a state built from a seed. *)
Theorem seeded_sessions_agree :
  (∀ (seed1 seed2 : Z) (calls1 calls2 : list call),
     seed1 = seed2 → calls1 = calls2 →
     ∃ t, session (R := R) seed1 calls1 = Some t ∧
          session (R := R) seed2 calls2 = Some t ∧
          length t = S (length calls1)) ∧
  (∀ b : Board R,
     restart b = Board_init (rng b) ∧
     ∃ b', restart b = Some b' ∧ score b' = 0%Z ∧
           rng b' = (random (randbelow
                       (random (randbelow (rng b) 16).2).2 15).2).2).
Proof.
  split.
  - intros seed ? calls ? <- <-. unfold session.
    destruct (init_total (from_seed seed)) as (b&->&Hwf&Ht&_).
    cbn [mbind option_bind].
    destruct (run_total b calls) as (bs&->&Hlen); [by split|].
    eexists. split; [done|]. split; [done|].
    cbn. by rewrite length_fmap, Hlen.
  - intros b. split; [apply restart_init|apply restart_rng].
Qed.

End Determinism.

(** C5, witness: seed 123, a move, a restart, a move. *)
Lemma seeded_sessions_agree_witness :
  let calls := [Move "a"; Restart; Move "w"] in
  ∃ t, session (R := Z) 123 calls = Some t ∧
       session (R := Z) 123 calls = Some t ∧
       length t = S (length calls).
Proof.
  intros calls.
  apply (proj1 (seeded_sessions_agree (R := Z)) 123%Z 123%Z calls calls);
    reflexivity.
Defined.

(** * Further properties of the engine *)

(** ** Sums over a line *)

Lemma sum_Z_cons (x : Z) (l : list Z) : sum_Z (x :: l) = (x + sum_Z l)%Z.
Proof. reflexivity. Qed.

Lemma sum_Z_replicate_zero (n : nat) : sum_Z (replicate n 0%Z) = 0%Z.
Proof. induction n as [|n IH]; [done|]. cbn [replicate]. by rewrite sum_Z_cons, IH. Qed.

Lemma sum_Z_compact (arr : list Z) : sum_Z (compact arr) = sum_Z arr.
Proof.
  unfold compact. induction arr as [|x arr IH]; [done|].
  destruct (decide (x = 0%Z)) as [->|Hx].
  - rewrite filter_cons_False by (intros Hn; by apply Hn).
    by rewrite sum_Z_cons, IH.
  - rewrite filter_cons_True by done. by rewrite !sum_Z_cons, IH.
Qed.

Lemma sum_Z_merged_of (c : list Z) : sum_Z (merged_of c) = sum_Z c.
Proof.
  induction c as [|x|x y l IH1 IH2] using list_pair_ind; [done..|].
  destruct (decide (x = y)) as [->|Hne].
  - rewrite merged_of_pair, !sum_Z_cons, IH1. lia.
  - rewrite merged_of_skip by done. by rewrite !sum_Z_cons, IH2.
Qed.

(** Compacting, merging and padding keep the sum of a line. *)
Lemma process_sum (arr : list Z) : sum_Z (process arr) = sum_Z arr.
Proof.
  unfold process, pad.
  by rewrite sum_Z_app, sum_Z_replicate_zero, sum_Z_merged_of, sum_Z_compact, Z.add_0_r.
Qed.

Lemma count_nonzero (c : list Z) :
  Forall (λ x, x ≠ 0%Z) c → sum_Z (occupied <$> c) = Z.of_nat (length c).
Proof.
  induction 1 as [|x c Hx _ IH]; [done|].
  cbn [fmap list_fmap length]. rewrite sum_Z_cons, IH.
  unfold occupied. rewrite decide_False by done. lia.
Qed.

Lemma count_compact (arr : list Z) :
  sum_Z (occupied <$> arr) = Z.of_nat (length (compact arr)).
Proof.
  unfold compact. induction arr as [|x arr IH]; [done|].
  cbn [fmap list_fmap]. rewrite sum_Z_cons, IH. unfold occupied.
  destruct (decide (x = 0%Z)) as [->|Hx].
  - by rewrite filter_cons_False by (intros Hn; by apply Hn).
  - rewrite filter_cons_True by done. cbn [length]. lia.
Qed.

Lemma merged_of_events_length (c : list Z) :
  length (merged_of c) + length (merge_events c) = length c.
Proof.
  induction c as [|x|x y l IH1 IH2] using list_pair_ind; [done..|].
  rewrite merge_events_two. destruct (decide (x = y)) as [->|Hne].
  - rewrite merged_of_pair. cbn [length]. lia.
  - rewrite merged_of_skip by done. cbn [length] in *. lia.
Qed.

(** Every merge event takes one tile off the line. *)
Lemma process_count (arr : list Z) :
  (sum_Z (occupied <$> process arr)
   + Z.of_nat (length (merge_events (compact arr))))%Z
  = sum_Z (occupied <$> arr).
Proof.
  rewrite !count_compact, compact_process.
  pose proof (merged_of_events_length (compact arr)). lia.
Qed.

Lemma merged_of_nonzero (arr : list Z) :
  Forall (λ x, x ≠ 0%Z) (merged_of (compact arr)).
Proof. apply merged_of_Forall; [lia|apply compact_nonzero]. Qed.

(** A processed line has no gap. *)
Lemma process_packed (arr : list Z) : packed (process arr).
Proof.
  intros i j x Hij Hi Hj. unfold process, pad in *.
  pose proof (merged_of_nonzero arr) as Hm.
  set (m := merged_of (compact arr)) in *.
  destruct (decide (i < length m)) as [Hlt|Hge].
  - rewrite lookup_app_l in Hi by done.
    rewrite Forall_forall in Hm. destruct (Hm 0%Z); [|done].
    by eapply list_elem_of_lookup_2.
  - rewrite lookup_app_r in Hj by lia.
    by apply lookup_replicate in Hj as [-> _].
Qed.

Lemma merged_of_no_events (c : list Z) : merge_events c = [] → merged_of c = c.
Proof.
  induction c as [|x|x y l IH1 IH2] using list_pair_ind; [done..|].
  rewrite merge_events_two. destruct (decide (x = y)) as [->|Hne]; [done|].
  intros Hev. rewrite merged_of_skip by done. by rewrite IH2.
Qed.

Lemma pad_full (m : list Z) : length m = SIZE → pad m = m.
Proof. intros Hm. unfold pad. rewrite Hm, Nat.sub_diag. apply app_nil_r. Qed.

(** A full line without two equal neighbours comes back as it is. *)
Lemma process_stuck (l : list Z) :
  length l = SIZE → Forall (λ x, x ≠ 0%Z) l →
  (∀ i x, l !! i = Some x → l !! S i = Some x → False) →
  process l = l.
Proof.
  intros Hlen Hnz Hadj. unfold process. rewrite compact_id by done.
  rewrite merged_of_no_events; [by apply pad_full|].
  clear Hlen Hnz. induction l as [|x|x y l IH1 IH2] using list_pair_ind; [done..|].
  rewrite merge_events_two. destruct (decide (x = y)) as [->|Hne].
  - destruct (Hadj 0 y); reflexivity.
  - apply IH2. intros i z Hi HSi. by apply (Hadj (S i) z).
Qed.

Lemma merge_events_pair_inside (pre post : list Z) (v : Z) :
  merge_events (pre ++ v :: v :: post) ≠ [].
Proof.
  induction pre as [|x|x y l IH1 IH2] using list_pair_ind.
  - cbn [app]. rewrite merge_events_two, decide_True by done. done.
  - cbn [app]. rewrite merge_events_two. destruct (decide (x = v)); [done|].
    rewrite merge_events_two, decide_True by done. done.
  - cbn [app]. rewrite merge_events_two. destruct (decide (x = y)); [done|].
    exact IH2.
Qed.

(** Two equal tiles side by side in a line: the line has a merge. *)
Lemma adjacent_pair_event (l : list Z) (c : nat) (v : Z) :
  l !! c = Some v → l !! S c = Some v → v ≠ 0%Z →
  merge_events (compact l) ≠ [].
Proof.
  intros Hc HSc Hv.
  rewrite <- (take_drop_middle l c v Hc). unfold compact.
  assert (drop (S c) l = v :: drop (S (S c)) l) as ->.
  { rewrite <- (take_drop_middle l (S c) v HSc) at 1.
    rewrite drop_app_length'; [done|].
    rewrite length_take. apply lookup_lt_Some in HSc. lia. }
  rewrite filter_app, !filter_cons_True by done.
  apply merge_events_pair_inside.
Qed.

Lemma compact_full (arr : list Z) :
  length (compact arr) = length arr → compact arr = arr.
Proof.
  unfold compact. induction arr as [|x arr IH]; [done|].
  pose proof (length_filter (λ x, x ≠ 0%Z) arr) as Hle.
  destruct (decide (x = 0%Z)) as [->|Hx].
  - rewrite filter_cons_False by (intros Hn; by apply Hn). cbn [length]. lia.
  - rewrite filter_cons_True by done. cbn [length]. intros [= Hl].
    by rewrite IH.
Qed.

(** A line of four cells that changes comes back with an empty cell. *)
Lemma process_changed_has_zero (arr : list Z) :
  length arr = SIZE → process arr ≠ arr → 0%Z ∈ process arr.
Proof.
  intros Hlen Hne.
  pose proof (merged_of_length (compact arr)) as H1.
  pose proof (length_filter (λ x, x ≠ 0%Z) arr) as H2.
  fold (compact arr) in H2.
  destruct (decide (length (merged_of (compact arr)) = SIZE)) as [Hfull|Hshort].
  - exfalso. apply Hne.
    assert (compact arr = arr) as Hc by (apply compact_full; lia).
    unfold process. rewrite pad_full by done. rewrite Hc in *.
    destruct (merged_of_no_event arr) as [[_ ?]|?]; [done|lia].
  - unfold process, pad. apply elem_of_app. right.
    destruct (SIZE - length (merged_of (compact arr))) as [|k] eqn:Hk; [lia|].
    by left.
Qed.

(** Tiles do not vanish: a line with a tile comes back with a tile. *)
Lemma merged_of_nonempty (c : list Z) : c ≠ [] → merged_of c ≠ [].
Proof.
  destruct c as [|x [|y l]]; [done|done|]. intros _.
  destruct (decide (x = y)) as [->|Hne].
  - by rewrite merged_of_pair.
  - by rewrite merged_of_skip.
Qed.

(** ** Sums over the grid *)

Lemma grid_sum_rows (h : Z → Z) (g : list (list Z)) :
  grid_sum h g = sum_Z ((λ l, sum_Z (h <$> l)) <$> g).
Proof.
  unfold grid_sum. induction g as [|l g IH]; [done|].
  cbn [concat fmap list_fmap]. by rewrite fmap_app, sum_Z_app, sum_Z_cons, IH.
Qed.

Lemma grid_sum_lines (h : Z → Z) (d : string) (g : list (list Z)) :
  wf g → d ∈ directions → grid_sum h (lines d g) = grid_sum h g.
Proof.
  intros (a0&a1&a2&a3&b0&b1&b2&b3&c0&c1&c2&c3&d0&d1&d2&d3&->)%wf_cells Hd.
  each_direction Hd.
  all: match goal with
       | |- context [lines ?d ?g] =>
           let r := eval vm_compute in (lines d g) in change (lines d g) with r
       end.
  all: unfold grid_sum, sum_Z; cbn [concat app fmap list_fmap foldr]; lia.
Qed.

Lemma grid_sum_unlines (h : Z → Z) (d : string) (ls : list (list Z)) :
  wf ls → d ∈ directions → grid_sum h (unlines d ls) = grid_sum h ls.
Proof.
  intros Hls Hd.
  rewrite <- (grid_sum_lines h d (unlines d ls)); [|by apply wf_unlines|done].
  by rewrite lines_unlines.
Qed.

Lemma sum_Z_insert (f : Z → Z) (l : list Z) (i : nat) (x y : Z) :
  l !! i = Some x →
  sum_Z (f <$> <[i := y]> l) = (sum_Z (f <$> l) - f x + f y)%Z.
Proof.
  revert i. induction l as [|z l IH]; intros [|i] Hi; try done.
  - injection Hi as ->. change (<[0 := y]> (x :: l)) with (y :: l).
    rewrite !fmap_cons, !sum_Z_cons. lia.
  - change (<[S i := y]> (z :: l)) with (z :: <[i := y]> l).
    rewrite !fmap_cons, !sum_Z_cons, (IH i Hi). lia.
Qed.

Lemma sum_rows_insert (f : list Z → Z) (g : list (list Z)) (i : nat)
    (row row' : list Z) :
  g !! i = Some row →
  sum_Z (f <$> <[i := row']> g) = (sum_Z (f <$> g) - f row + f row')%Z.
Proof.
  revert i. induction g as [|z g IH]; intros [|i] Hi; try done.
  - injection Hi as ->. change (<[0 := row']> (row :: g)) with (row' :: g).
    rewrite !fmap_cons, !sum_Z_cons. lia.
  - change (<[S i := row']> (z :: g)) with (z :: <[i := row']> g).
    rewrite !fmap_cons, !sum_Z_cons, (IH i Hi). lia.
Qed.

(** Writing one cell changes the sum by the difference of the weights. *)
Lemma grid_sum_insert (h : Z → Z) (g : list (list Z)) (r c : nat)
    (row : list Z) (old v : Z) :
  g !! r = Some row → row !! c = Some old →
  grid_sum h (<[r := <[c := v]> row]> g) = (grid_sum h g - h old + h v)%Z.
Proof.
  intros Hrow Hc. rewrite !grid_sum_rows.
  rewrite (sum_rows_insert _ g r row) by done.
  rewrite (sum_Z_insert h row c old) by done. lia.
Qed.

(** ** Lines and cells *)

Lemma lines_cell (d : string) (g : list (list Z)) (i j : nat) :
  wf g → d ∈ directions → i < SIZE → j < SIZE →
  cell (lines d g) i j = cell g (line_cell d i j).1 (line_cell d i j).2.
Proof.
  intros (a0&a1&a2&a3&b0&b1&b2&b3&c0&c1&c2&c3&d0&d1&d2&d3&->)%wf_cells Hd.
  unfold SIZE. intros Hi Hj.
  destruct i as [|[|[|[|i]]]]; [| | | |lia];
    (destruct j as [|[|[|[|j]]]]; [| | | |lia]);
    each_direction Hd; reflexivity.
Qed.

Ltac eval_line_cell :=
  repeat match goal with
         | |- context [line_cell ?d ?i ?j] =>
             first [ change (line_cell d i j) with (i, j)
                   | change (line_cell d i j) with (i, SIZE - 1 - j)
                   | change (line_cell d i j) with (j, i)
                   | change (line_cell d i j) with (SIZE - 1 - j, i) ]
         end.

Lemma line_cell_adjacent (d : string) (i j : nat) :
  d ∈ directions → S j < SIZE →
  adjacent (line_cell d i j) (line_cell d i (S j)).
Proof.
  unfold SIZE. intros Hd Hj.
  each_direction Hd; eval_line_cell; unfold adjacent, SIZE; cbn [fst snd]; lia.
Qed.

Lemma lines_length (d : string) (g : list (list Z)) (i : nat) (l : list Z) :
  wf g → d ∈ directions → lines d g !! i = Some l → i < SIZE ∧ length l = SIZE.
Proof.
  intros Hg Hd Hl. destruct (wf_lines d g Hg Hd) as [Hlen Hrows]. split.
  - apply lookup_lt_Some in Hl. lia.
  - rewrite Forall_forall in Hrows. apply Hrows. by eapply list_elem_of_lookup_2.
Qed.

(** A position of a line is a cell of the grid. *)
Lemma line_lookup_cell (d : string) (g : list (list Z)) (i j : nat)
    (l : list Z) (x : Z) :
  wf g → d ∈ directions → lines d g !! i = Some l → l !! j = Some x →
  cell g (line_cell d i j).1 (line_cell d i j).2 = Some x.
Proof.
  intros Hg Hd Hl Hx. destruct (lines_length d g i l Hg Hd Hl) as [Hi Hlen].
  rewrite <- lines_cell; [|done..|].
  - unfold cell. by rewrite Hl.
  - apply lookup_lt_Some in Hx. lia.
Qed.

Lemma fixed_map (ls : list (list Z)) :
  (∀ i l, ls !! i = Some l → process l = l) → process <$> ls = ls.
Proof.
  intros Hfix. apply list_eq. intros i. rewrite list_lookup_fmap.
  destruct (ls !! i) as [l|] eqn:Hl; [|done]. cbn. by rewrite (Hfix i l).
Qed.

(** A slide gives the grid back exactly when every line comes back. *)
Lemma slid_fixed_lines (d : string) (g : list (list Z)) :
  wf g → d ∈ directions →
  slid_grid d g = g ↔ process <$> lines d g = lines d g.
Proof.
  intros Hg Hd. unfold slid_grid. split.
  - intros Hfix. rewrite <- Hfix at 2.
    rewrite lines_unlines; [done| |done]. by apply wf_process, wf_lines.
  - intros ->. by apply unlines_lines.
Qed.

(** ** What a slide does to the tiles *)

Lemma lines_slid_grid (d : string) (g : list (list Z)) :
  wf g → d ∈ directions → lines d (slid_grid d g) = process <$> lines d g.
Proof.
  intros Hg Hd. unfold slid_grid.
  rewrite lines_unlines; [done| |done]. by apply wf_process, wf_lines.
Qed.

Lemma grid_sum_slid (h : Z → Z) (d : string) (g : list (list Z)) :
  wf g → d ∈ directions →
  grid_sum h (slid_grid d g) =
  sum_Z ((λ l, sum_Z (h <$> process l)) <$> lines d g).
Proof.
  intros Hg Hd. unfold slid_grid.
  rewrite grid_sum_unlines; [| by apply wf_process, wf_lines | done].
  rewrite grid_sum_rows, <- list_fmap_compose. done.
Qed.

Lemma tile_total_slid (d : string) (g : list (list Z)) :
  wf g → d ∈ directions → tile_total (slid_grid d g) = tile_total g.
Proof.
  intros Hg Hd. unfold tile_total. rewrite grid_sum_slid by done.
  rewrite <- (grid_sum_lines id d g), grid_sum_rows by done.
  f_equal. apply list_fmap_ext. intros i l _.
  by rewrite !list_fmap_id, process_sum.
Qed.

Lemma tile_count_slid (d : string) (g : list (list Z)) :
  wf g → d ∈ directions →
  (tile_count (slid_grid d g) + Z.of_nat (length (move_events d g)))%Z
  = tile_count g.
Proof.
  intros Hg Hd. unfold tile_count. rewrite grid_sum_slid by done.
  rewrite <- (grid_sum_lines occupied d g), grid_sum_rows by done.
  unfold move_events. rewrite decide_True by done.
  induction (lines d g) as [|l ls IH]; [done|].
  cbn [fmap list_fmap concat]. rewrite !sum_Z_cons, length_app.
  pose proof (process_count l). lia.
Qed.

Lemma merge_events_half (c : list Z) : 2 * length (merge_events c) ≤ length c.
Proof.
  induction c as [|x|x y l IH1 IH2] using list_pair_ind; [cbn; lia..|].
  rewrite merge_events_two. destruct (decide (x = y)); cbn [length] in *; lia.
Qed.

(** Two tiles make a merge: a move has at most half as many merge events
    as the grid has tiles. *)
Lemma move_events_half (d : string) (g : list (list Z)) :
  wf g → (2 * Z.of_nat (length (move_events d g)) ≤ tile_count g)%Z.
Proof.
  intros Hg. unfold move_events. destruct (decide (d ∈ directions)) as [Hd|Hd].
  - unfold tile_count.
    rewrite <- (grid_sum_lines occupied d g), grid_sum_rows by done.
    induction (lines d g) as [|l ls IH]; [done|].
    cbn [fmap list_fmap concat]. rewrite sum_Z_cons, length_app.
    pose proof (merge_events_half (compact l)).
    pose proof (count_compact l). lia.
  - cbn [length]. unfold tile_count, grid_sum.
    clear. induction (concat g) as [|x l IH]; [done|].
    rewrite fmap_cons, sum_Z_cons. unfold occupied at 1.
    destruct (decide (x = 0%Z)); lia.
Qed.

Lemma has_empty_concat (g : list (list Z)) : has_empty g ↔ 0%Z ∈ concat g.
Proof.
  rewrite list_elem_of_In, in_concat. unfold has_empty, cell. split.
  - intros (r&c&Hrc). destruct (g !! r) as [row|] eqn:Hr; [|done].
    cbn in Hrc. exists row.
    split; apply list_elem_of_In; by eapply list_elem_of_lookup_2.
  - intros (row&Hrow&Hz).
    apply list_elem_of_In, list_elem_of_lookup in Hrow as [r Hr].
    apply list_elem_of_In, list_elem_of_lookup in Hz as [c Hc].
    exists r, c. by rewrite Hr.
Qed.

Lemma count_lt_has_zero (l : list Z) :
  (sum_Z (occupied <$> l) < Z.of_nat (length l))%Z → 0%Z ∈ l.
Proof.
  induction l as [|x l IH]; [cbn; lia|].
  rewrite fmap_cons, sum_Z_cons. cbn [length]. unfold occupied at 1.
  destruct (decide (x = 0%Z)) as [->|Hx]; [intros _; by left|].
  intros Hlt. right. apply IH. lia.
Qed.

Lemma count_has_tile (l : list Z) :
  (0 < sum_Z (occupied <$> l))%Z → ∃ v, v ∈ l ∧ v ≠ 0%Z.
Proof.
  induction l as [|x l IH]; [cbn; lia|].
  rewrite fmap_cons, sum_Z_cons. unfold occupied at 1.
  destruct (decide (x = 0%Z)) as [->|Hx].
  - intros Hlt. destruct IH as (v&Hv&Hne); [lia|]. exists v. split; [by right|done].
  - intros _. exists x. split; [by left|done].
Qed.

(** A grid that is not full has an empty cell. *)
Lemma not_full_has_empty (g : list (list Z)) :
  wf g → (tile_count g < 16)%Z → has_empty g.
Proof.
  intros Hg Hlt. apply has_empty_concat, count_lt_has_zero.
  destruct (wf_cells g Hg)
    as (a0&a1&a2&a3&b0&b1&b2&b3&c0&c1&c2&c3&d0&d1&d2&d3&->).
  exact Hlt.
Qed.

(** A grid that counts a tile has a cell with a tile. *)
Lemma counted_tile (g : list (list Z)) :
  (0 < tile_count g)%Z → ∃ r c v, cell g r c = Some v ∧ v ≠ 0%Z.
Proof.
  intros (v&Hv&Hne)%count_has_tile.
  apply list_elem_of_In, in_concat in Hv as (row&Hrow&Hv).
  apply list_elem_of_In, list_elem_of_lookup in Hrow as [r Hr].
  apply list_elem_of_In, list_elem_of_lookup in Hv as [c Hc].
  exists r, c, v. unfold cell. by rewrite Hr.
Qed.

(** A slide that changes the grid leaves an empty cell. *)
Lemma changed_has_empty (d : string) (g : list (list Z)) :
  wf g → d ∈ directions → slid_grid d g ≠ g → has_empty (slid_grid d g).
Proof.
  intros Hg Hd Hne.
  destruct (decide (Forall (λ l, process l = l) (lines d g))) as [Hall|Hsome].
  { exfalso. apply Hne, slid_fixed_lines; [done..|]. apply fixed_map.
    intros i l Hl. rewrite Forall_lookup in Hall. by eapply Hall. }
  apply not_Forall_Exists in Hsome; [|apply _].
  apply Exists_exists in Hsome as (l&Hin&Hl).
  apply list_elem_of_lookup in Hin as [i Hi].
  destruct (lines_length d g i l Hg Hd Hi) as [Hilt Hlen].
  apply process_changed_has_zero in Hl; [|done].
  apply list_elem_of_lookup in Hl as [j Hj].
  exists (line_cell d i j).1, (line_cell d i j).2.
  apply (line_lookup_cell d (slid_grid d g) i j (process l));
    [by apply wf_slid_grid|done| |done].
  by rewrite lines_slid_grid, list_lookup_fmap, Hi.
Qed.

(** ** X1, X2: what a slide keeps *)

(** X1.  On a well-formed grid a slide in a recognised direction keeps the
    sum of the tiles, and removes exactly one tile per merge event: the
    number of tiles after the slide plus the number of merge events is the
    number of tiles before.  A move has at most half as many merge events
    as the grid has tiles. *)
Theorem slide_keeps_sum_and_counts_merges (d : string) (g : list (list Z)) :
  wf g → d ∈ directions →
  ∃ g' s,
    slide d g = Some (g', s) ∧
    tile_total g' = tile_total g ∧
    (tile_count g' + Z.of_nat (length (move_events d g)))%Z = tile_count g ∧
    (2 * Z.of_nat (length (move_events d g)) ≤ tile_count g)%Z.
Proof.
  intros Hg Hd. eexists _, _. split; [by apply slide_lines|].
  fold (slid_grid d g). split; [by apply tile_total_slid|].
  split; [by apply tile_count_slid|by apply move_events_half].
Qed.

(** X1, witness: a grid with three merges when slid to the left. *)
Lemma slide_keeps_sum_and_counts_merges_witness :
  let g := [[2; 2; 4; 4]; [0; 8; 0; 8]; [2; 4; 2; 4]; [0; 0; 0; 0]]%Z in
  ∃ g' s,
    slide "a" g = Some (g', s) ∧
    tile_total g' = tile_total g ∧
    (tile_count g' + Z.of_nat (length (move_events "a" g)))%Z = tile_count g ∧
    (2 * Z.of_nat (length (move_events "a" g)) ≤ tile_count g)%Z.
Proof.
  intros g. apply (slide_keeps_sum_and_counts_merges "a" g).
  - apply wf_explicit.
  - in_directions.
Defined.

(** X2.  After a slide every line, read in the order of the move, is
    packed: no tile comes after an empty cell. *)
Theorem slide_packs_lines (d : string) (g : list (list Z)) :
  wf g → d ∈ directions →
  ∃ g' s, slide d g = Some (g', s) ∧ Forall packed (lines d g').
Proof.
  intros Hg Hd. eexists _, _. split; [by apply slide_lines|].
  fold (slid_grid d g). rewrite lines_slid_grid by done.
  apply Forall_fmap, Forall_forall. intros l _. apply process_packed.
Qed.

(** X2, witness: a slide down. *)
Lemma slide_packs_lines_witness :
  let g := [[2; 0; 4; 4]; [0; 8; 0; 8]; [2; 4; 0; 4]; [0; 0; 2; 0]]%Z in
  ∃ g' s, slide "s" g = Some (g', s) ∧ Forall packed (lines "s" g').
Proof.
  intros g. apply (slide_packs_lines "s" g).
  - apply wf_explicit.
  - in_directions.
Defined.

(** ** X3: a move that moved has spawned *)

Section MoveSpawns.
Context {R : Type} `{RandomSource R}.

(** On a grid with an empty cell the spawn places one tile, a 2 or a 4. *)
Lemma spawn_adds_tile (b : Board R) :
  wf (grid b) → has_empty (grid b) →
  ∃ b', _spawn_random_tile b = Some b' ∧ wf (grid b') ∧
        score b' = score b ∧
        tile_count (grid b') = (tile_count (grid b) + 1)%Z ∧
        (tile_total (grid b') = tile_total (grid b) + 2 ∨
         tile_total (grid b') = tile_total (grid b) + 4)%Z.
Proof.
  intros Hg (r0&c0&Hz). destruct (empties_spec (grid b) Hg) as (es&Hes&Hspec).
  assert (es ≠ []) as Hne.
  { intros ->. apply Hspec in Hz. by apply elem_of_nil in Hz. }
  destruct (spawn_some b es Hg Hes Hne Hspec) as (r&c&row&_&Hrow&Hc&->).
  eexists. split; [done|]. cbn [grid score].
  split; [by apply wf_insert|]. split; [done|].
  unfold tile_count, tile_total.
  rewrite !(grid_sum_insert _ (grid b) r c row 0%Z) by done.
  unfold occupied, spawn_value, id.
  destruct (float_lt _ _); rewrite decide_True by done;
    rewrite decide_False by done; lia.
Qed.

(** What a move that moved has done to the tiles. *)
Lemma moved_has_spawned (b b' : Board R) (d : string) (res : MoveResult) :
  wf (grid b) → move b d = Some (b', res) → moved res = true →
  ∃ g1 s,
    slide (lower d) (grid b) = Some (g1, s) ∧ has_empty g1 ∧
    tile_count (grid b') = (tile_count g1 + 1)%Z ∧
    tile_count (grid b') =
      (tile_count (grid b)
       - Z.of_nat (length (move_events (lower d) (grid b))) + 1)%Z ∧
    (tile_total (grid b') = tile_total (grid b) + 2 ∨
     tile_total (grid b') = tile_total (grid b) + 4)%Z.
Proof.
  intros Hg Hmove Hres.
  destruct (decide (lower d ∈ directions)) as [Hd|Hd]; cycle 1.
  { rewrite move_unrecognised in Hmove by done. by injection Hmove as <- <-. }
  destruct (decide (slid_grid (lower d) (grid b) = grid b)) as [Hfix|Hne].
  { rewrite move_unchanged in Hmove by done. by injection Hmove as <- <-. }
  rewrite move_changed in Hmove by done.
  set (b1 := mkBoard _ _ _) in Hmove.
  pose proof (changed_has_empty _ _ Hg Hd Hne) as Hempty.
  destruct (spawn_adds_tile b1) as (b2&Hb2&_&_&Hcount&Htotal);
    [by apply wf_slid_grid|done|].
  rewrite Hb2 in Hmove. injection Hmove as <- _.
  eexists _, _. split; [by apply slide_lines|].
  fold (slid_grid (lower d) (grid b)). cbn [grid b1] in *.
  split; [done|]. split; [done|].
  pose proof (tile_count_slid (lower d) (grid b) Hg Hd).
  rewrite <- (tile_total_slid (lower d) (grid b)) by done.
  split; [lia|done].
Qed.

(** X3.  A call of [move] that reports [moved = true] has always placed a
    new tile: the slide that changed the grid left an empty cell, so the
    spawn that follows never finds the grid full.  The board then holds
    one tile more than after the slide, the sum of its tiles is the sum
    before the move plus the new tile, 2 or 4, and the number of its tiles
    is the number before, minus the merge events, plus one. *)
Theorem successful_move_spawns (b b' : Board R) (d : string) (res : MoveResult) :
  wf (grid b) → move b d = Some (b', res) → moved res = true →
  ∃ g1 s,
    slide (lower d) (grid b) = Some (g1, s) ∧ has_empty g1 ∧
    tile_count (grid b') = (tile_count g1 + 1)%Z ∧
    tile_count (grid b') =
      (tile_count (grid b)
       - Z.of_nat (length (move_events (lower d) (grid b))) + 1)%Z ∧
    (tile_total (grid b') = tile_total (grid b) + 2 ∨
     tile_total (grid b') = tile_total (grid b) + 4)%Z.
Proof. apply moved_has_spawned. Qed.

End MoveSpawns.

(** X3, witness: a move to the left that merges one pair. *)
Lemma successful_move_spawns_witness :
  let b := mkBoard (from_seed 1)
             [[2; 2; 0; 0]; [0; 0; 0; 0]; [0; 0; 0; 0]; [0; 0; 0; 0]]%Z 0%Z in
  let b' := mkBoard 377401575%Z
              [[4; 0; 0; 0]; [0; 0; 0; 0]; [0; 2; 0; 0]; [0; 0; 0; 0]]%Z 4%Z in
  ∃ g1 s,
    slide (lower "a") (grid b) = Some (g1, s) ∧ has_empty g1 ∧
    tile_count (grid b') = (tile_count g1 + 1)%Z ∧
    tile_count (grid b') =
      (tile_count (grid b)
       - Z.of_nat (length (move_events (lower "a") (grid b))) + 1)%Z ∧
    (tile_total (grid b') = tile_total (grid b) + 2 ∨
     tile_total (grid b') = tile_total (grid b) + 4)%Z.
Proof.
  intros b b'.
  apply (successful_move_spawns (R := Z) b b' "a" (mkMoveResult true 4)).
  - apply wf_explicit.
  - vm_compute. reflexivity.
  - reflexivity.
Defined.

(** ** X4: game over and the moves that are left *)

(** Without an empty cell and without equal neighbours no slide changes
    the grid. *)
Lemma stuck_grid (d : string) (g : list (list Z)) :
  wf g → d ∈ directions → ¬ has_empty g → ¬ adjacent_equal g →
  slid_grid d g = g.
Proof.
  intros Hg Hd Hne Hna. apply slid_fixed_lines; [done..|]. apply fixed_map.
  intros i l Hl. destruct (lines_length d g i l Hg Hd Hl) as [Hi Hlen].
  assert (∀ j x, l !! j = Some x → x ≠ 0%Z) as Hnz.
  { intros j x Hx ->. apply Hne. eexists _, _. by eapply line_lookup_cell. }
  apply process_stuck; [done|by apply Forall_lookup|].
  intros j x Hj HSj. apply Hna.
  exists (line_cell d i j), (line_cell d i (S j)), x. split.
  { apply line_cell_adjacent; [done|]. apply lookup_lt_Some in HSj. lia. }
  split; [by eapply Hnz|]. split; by eapply line_lookup_cell.
Qed.

Lemma line_of_cell (d : string) (g : list (list Z)) (i j : nat) (x : Z) :
  wf g → d ∈ directions → i < SIZE → j < SIZE →
  cell g (line_cell d i j).1 (line_cell d i j).2 = Some x →
  ∃ l, lines d g !! i = Some l ∧ length l = SIZE ∧ l !! j = Some x.
Proof.
  intros Hg Hd Hi Hj Hx. rewrite <- lines_cell in Hx by done.
  unfold cell in Hx. destruct (lines d g !! i) as [l|] eqn:Hl; [|done].
  exists l. split; [done|]. split; [|done]. by eapply lines_length.
Qed.

(** Two equal tiles next to each other along a line: the slide along the
    line changes the grid. *)
Lemma line_pair_moves (d : string) (g : list (list Z)) (i j : nat) (v : Z) :
  wf g → d ∈ directions → i < SIZE → S j < SIZE → v ≠ 0%Z →
  cell g (line_cell d i j).1 (line_cell d i j).2 = Some v →
  cell g (line_cell d i (S j)).1 (line_cell d i (S j)).2 = Some v →
  slid_grid d g ≠ g.
Proof.
  intros Hg Hd Hi Hj Hv Hp Hq Hfix.
  destruct (line_of_cell d g i j v) as (l&Hl&_&Hlj); [done..|lia|done|].
  destruct (line_of_cell d g i (S j) v) as (l'&Hl'&_&HlSj); [done..|].
  rewrite Hl in Hl'. injection Hl' as <-.
  apply (adjacent_pair_event l j v Hlj HlSj Hv), process_fixed_no_event.
  apply slid_fixed_lines in Hfix; [|done..].
  apply (f_equal (.!! i)) in Hfix. rewrite list_lookup_fmap, Hl in Hfix.
  by injection Hfix.
Qed.

Lemma merge_moves (g : list (list Z)) :
  wf g → adjacent_equal g → ∃ d, d ∈ directions ∧ slid_grid d g ≠ g.
Proof.
  intros Hg ([r c]&[r' c']&v&Hadj&Hv&Hp&Hq).
  unfold adjacent in Hadj. cbn [fst snd] in *.
  pose proof (cell_Some_lt g r c v Hg Hp) as [? ?].
  pose proof (cell_Some_lt g r' c' v Hg Hq) as [? ?].
  destruct Hadj as [[-> [<-|<-]]|[-> [<-|<-]]].
  - exists "a". split; [in_directions|].
    apply (line_pair_moves "a" g r' c v);
      [done|in_directions|lia|lia|done|exact Hp|].
    replace (S c) with (c + 1) by lia. exact Hq.
  - exists "a". split; [in_directions|].
    apply (line_pair_moves "a" g r' c' v);
      [done|in_directions|lia|lia|done|exact Hq|].
    replace (S c') with (c' + 1) by lia. exact Hp.
  - exists "w". split; [in_directions|].
    apply (line_pair_moves "w" g c' r v);
      [done|in_directions|lia|lia|done|exact Hp|].
    replace (S r) with (r + 1) by lia. exact Hq.
  - exists "w". split; [in_directions|].
    apply (line_pair_moves "w" g c' r' v);
      [done|in_directions|lia|lia|done|exact Hq|].
    replace (S r') with (r' + 1) by lia. exact Hp.
Qed.

(** On a grid that no slide changes, an empty cell empties its line. *)
Lemma sweep (d : string) (g : list (list Z)) (i j j' : nat) (x : Z) :
  wf g → d ∈ directions → slid_grid d g = g →
  i < SIZE → j < j' → j' < SIZE →
  cell g (line_cell d i j).1 (line_cell d i j).2 = Some 0%Z →
  cell g (line_cell d i j').1 (line_cell d i j').2 = Some x →
  x = 0%Z.
Proof.
  intros Hg Hd Hfix Hi Hjj Hj' Hz Hx.
  destruct (line_of_cell d g i j 0%Z) as (l&Hl&_&Hlj); [done..|lia|done|].
  destruct (line_of_cell d g i j' x) as (l'&Hl'&_&Hlj'); [done..|].
  rewrite Hl in Hl'. injection Hl' as <-.
  apply slid_fixed_lines in Hfix; [|done..].
  apply (f_equal (.!! i)) in Hfix. rewrite list_lookup_fmap, Hl in Hfix.
  injection Hfix as Hfix.
  pose proof (process_packed l) as Hpacked. rewrite Hfix in Hpacked.
  by apply (Hpacked j j' x).
Qed.

Lemma sweep_row (g : list (list Z)) (r c c' : nat) (x : Z) :
  wf g → (∀ d, d ∈ directions → slid_grid d g = g) →
  cell g r c = Some 0%Z → cell g r c' = Some x → x = 0%Z.
Proof.
  intros Hg Hfix Hz Hx.
  pose proof (cell_Some_lt g r c _ Hg Hz) as [Hr Hc].
  pose proof (cell_Some_lt g r c' _ Hg Hx) as [_ Hc'].
  destruct (Nat.lt_total c c') as [Hlt|[->|Hgt]].
  - apply (sweep "a" g r c c' x); [done|in_directions|apply Hfix; in_directions|done..].
  - congruence.
  - unfold SIZE in *.
    apply (sweep "d" g r (3 - c) (3 - c') x);
      [done|in_directions|apply Hfix; in_directions|unfold SIZE; lia..| |].
    + eval_line_cell. cbn [fst snd]. unfold SIZE.
      by replace (4 - 1 - (3 - c)) with c by lia.
    + eval_line_cell. cbn [fst snd]. unfold SIZE.
      by replace (4 - 1 - (3 - c')) with c' by lia.
Qed.

Lemma sweep_column (g : list (list Z)) (r r' c : nat) (x : Z) :
  wf g → (∀ d, d ∈ directions → slid_grid d g = g) →
  cell g r c = Some 0%Z → cell g r' c = Some x → x = 0%Z.
Proof.
  intros Hg Hfix Hz Hx.
  pose proof (cell_Some_lt g r c _ Hg Hz) as [Hr Hc].
  pose proof (cell_Some_lt g r' c _ Hg Hx) as [Hr' _].
  destruct (Nat.lt_total r r') as [Hlt|[->|Hgt]].
  - apply (sweep "w" g c r r' x); [done|in_directions|apply Hfix; in_directions|done..].
  - congruence.
  - unfold SIZE in *.
    apply (sweep "s" g c (3 - r) (3 - r') x);
      [done|in_directions|apply Hfix; in_directions|unfold SIZE; lia..| |].
    + eval_line_cell. cbn [fst snd]. unfold SIZE.
      by replace (4 - 1 - (3 - r)) with r by lia.
    + eval_line_cell. cbn [fst snd]. unfold SIZE.
      by replace (4 - 1 - (3 - r')) with r' by lia.
Qed.

(** With an empty cell and a tile on the grid some slide changes it. *)
Lemma gap_moves (g : list (list Z)) :
  wf g → has_empty g → (∃ r c v, cell g r c = Some v ∧ v ≠ 0%Z) →
  ∃ d, d ∈ directions ∧ slid_grid d g ≠ g.
Proof.
  intros Hg (r0&c0&Hz) (r&c&v&Hv&Hne).
  destruct (decide (Forall (λ d, slid_grid d g = g) directions)) as [Hall|Hsome].
  - exfalso. apply Hne. rewrite Forall_forall in Hall.
    pose proof (cell_Some_lt g r0 c0 _ Hg Hz) as [Hr0 _].
    pose proof (cell_Some_lt g r c _ Hg Hv) as [_ Hc].
    destruct (cell_wf g r0 c Hg Hr0 Hc) as [y Hy].
    assert (y = 0%Z) as -> by (by eapply (sweep_row g r0 c0 c)).
    by eapply (sweep_column g r0 r c).
  - apply not_Forall_Exists in Hsome; [|apply _].
    apply Exists_exists in Hsome as (d&Hd&Hne'). by exists d.
Qed.

Lemma slid_empty_grid (d : string) :
  d ∈ directions → slid_grid d empty_grid = empty_grid.
Proof. intros Hd. each_direction Hd; reflexivity. Qed.

Section GameOverMoves.
Context {R : Type} `{RandomSource R}.

Lemma changed_move (b : Board R) (d : string) :
  wf (grid b) → d ∈ directions → slid_grid d (grid b) ≠ grid b →
  ∃ b' res, move b d = Some (b', res) ∧ moved res = true.
Proof.
  intros Hg Hd Hne.
  assert (lower d = d) as Hlow by (each_direction Hd; reflexivity).
  rewrite move_changed; [|done|by rewrite Hlow|by rewrite Hlow].
  rewrite Hlow.
  destruct (spawn_total
              (mkBoard (rng b) (slid_grid d (grid b))
                 (score b + slid_gain d (grid b))%Z)) as (b'&->&_).
  { by apply wf_slid_grid. }
  by eexists _, _.
Qed.

Lemma no_move_when_over (b : Board R) :
  wf (grid b) → has_moves b = Some false →
  ∀ d, move b d = Some (b, mkMoveResult false 0).
Proof.
  intros Hg Hover d.
  destruct (has_moves_spec b Hg) as (res&Hres&Hspec).
  rewrite Hover in Hres. injection Hres as <-.
  destruct (decide (lower d ∈ directions)) as [Hd|Hd];
    [|by apply move_unrecognised].
  apply move_unchanged; [done..|]. apply stuck_grid; [done..| |].
  - intros He. by destruct Hspec as [_ Hs]; discriminate Hs; left.
  - intros He. by destruct Hspec as [_ Hs]; discriminate Hs; right.
Qed.

Lemma some_move_when_not_over (b : Board R) :
  wf (grid b) → has_moves b = Some true → (0 < tile_count (grid b))%Z →
  ∃ d b' res, d ∈ directions ∧ move b d = Some (b', res) ∧ moved res = true.
Proof.
  intros Hg Hmoves Htile.
  destruct (has_moves_spec b Hg) as (res&Hres&Hspec).
  rewrite Hmoves in Hres. injection Hres as <-.
  destruct Hspec as [[Hempty|Hadj] _]; [done| |].
  - destruct (gap_moves (grid b) Hg Hempty) as (d&Hd&Hne);
      [by apply counted_tile|].
    destruct (changed_move b d Hg Hd Hne) as (b'&res&?&?).
    by exists d, b', res.
  - destruct (merge_moves (grid b) Hg Hadj) as (d&Hd&Hne).
    destruct (changed_move b d Hg Hd Hne) as (b'&res&?&?).
    by exists d, b', res.
Qed.

(** X4.  On a well-formed grid, when [has_moves] returns [False] every
    call of [move], whatever the direction string, returns the board as it
    is with [moved = false].  When [has_moves] returns [True] and the grid
    holds at least one tile, one of the four directions gives
    [moved = true].  The tile is needed: on the grid of sixteen empty cells
    [has_moves] returns [True] and no move changes anything. *)
Theorem game_over_means_no_move :
  (∀ b : Board R,
     wf (grid b) → has_moves b = Some false →
     ∀ d, move b d = Some (b, mkMoveResult false 0)) ∧
  (∀ b : Board R,
     wf (grid b) → has_moves b = Some true → (0 < tile_count (grid b))%Z →
     ∃ d b' res,
       d ∈ directions ∧ move b d = Some (b', res) ∧ moved res = true) ∧
  (∀ (rng0 : R) (sc : Z),
     let b := mkBoard rng0 empty_grid sc in
     has_moves b = Some true ∧
     ∀ d, move b d = Some (b, mkMoveResult false 0)).
Proof.
  split; [|split].
  - apply no_move_when_over.
  - apply some_move_when_not_over.
  - intros rng0 sc b. split; [reflexivity|]. intros d.
    destruct (decide (lower d ∈ directions)) as [Hd|Hd];
      [|by apply move_unrecognised].
    apply move_unchanged; [apply wf_empty_grid|done|].
    by apply slid_empty_grid.
Qed.

End GameOverMoves.

(** X4, witness: the full checkerboard, on which [has_moves] is [False]. *)
Lemma game_over_means_no_move_witness :
  let b := mkBoard (from_seed 0)
             [[2; 4; 2; 4]; [4; 2; 4; 2]; [2; 4; 2; 4]; [4; 2; 4; 2]]%Z 12%Z in
  move b "s" = Some (b, mkMoveResult false 0).
Proof.
  intros b. apply (proj1 (game_over_means_no_move (R := Z)) b).
  - apply wf_explicit.
  - reflexivity.
Defined.

(** ** X5, X6: how many tiles a board holds *)

Lemma count_le_length (l : list Z) :
  (0 ≤ sum_Z (occupied <$> l) ≤ Z.of_nat (length l))%Z.
Proof.
  induction l as [|x l IH]; [cbn; lia|].
  rewrite fmap_cons, sum_Z_cons. cbn [length]. unfold occupied at 1 3.
  destruct (decide (x = 0%Z)); lia.
Qed.

Lemma tile_count_bounds (g : list (list Z)) :
  wf g → (0 ≤ tile_count g ≤ 16)%Z.
Proof.
  intros (a0&a1&a2&a3&b0&b1&b2&b3&c0&c1&c2&c3&d0&d1&d2&d3&->)%wf_cells.
  apply (count_le_length
           [a0; a1; a2; a3; b0; b1; b2; b3; c0; c1; c2; c3; d0; d1; d2; d3]).
Qed.

Section TileCount.
Context {R : Type} `{RandomSource R}.

Lemma init_two_tiles (rng0 : R) :
  ∃ b, Board_init rng0 = Some b ∧ score b = 0%Z ∧
       tile_count (grid b) = 2%Z ∧
       (tile_total (grid b) = 4 ∨ tile_total (grid b) = 6 ∨
        tile_total (grid b) = 8)%Z.
Proof.
  unfold Board_init. set (b0 := mkBoard rng0 empty_grid 0%Z).
  destruct (spawn_adds_tile b0) as (b1&->&Hwf1&Hs1&Hc1&Ht1).
  { apply wf_empty_grid. }
  { by exists 0, 0. }
  cbn [mbind option_bind].
  change (tile_count (grid b0)) with 0%Z in Hc1.
  change (tile_total (grid b0)) with 0%Z in Ht1.
  destruct (spawn_adds_tile b1) as (b2&->&Hwf2&Hs2&Hc2&Ht2); [done| |].
  { apply not_full_has_empty; [done|lia]. }
  exists b2. split; [done|]. split; [by rewrite Hs2, Hs1|]. split; lia.
Qed.

Lemma step_two_tiles (b b' : Board R) (c : call) :
  wf (grid b) → (2 ≤ tile_count (grid b))%Z → step b c = Some b' →
  (2 ≤ tile_count (grid b'))%Z.
Proof.
  intros Hg Hcount Hstep. destruct c as [d|]; cbn [step] in Hstep.
  - destruct (move b d) as [[b1 res]|] eqn:Hmove; [|done].
    injection Hstep as <-. destruct (moved res) eqn:Hres.
    + destruct (moved_has_spawned b b1 d res Hg Hmove Hres)
        as (_&_&_&_&_&Hc&_).
      pose proof (move_events_half (lower d) (grid b) Hg). lia.
    + by destruct (move_not_moved b b1 d res Hg Hmove Hres) as [-> _].
  - rewrite restart_init in Hstep.
    destruct (init_two_tiles (rng b)) as (b0&Hb0&_&Hc&_).
    rewrite Hb0 in Hstep. injection Hstep as <-. lia.
Qed.

Lemma reachable_two_tiles (b : Board R) :
  reachable b → (2 ≤ tile_count (grid b))%Z.
Proof.
  induction 1 as [rng0 b Hinit|b c b' Hreach IH Hstep].
  - destruct (init_two_tiles rng0) as (b0&Hb0&_&Hc&_).
    rewrite Hb0 in Hinit. injection Hinit as <-. lia.
  - apply reachable_invariant in Hreach as [Hg _].
    by eapply step_two_tiles.
Qed.

(** X5.  A board reachable from the constructor by moves and restarts
    always holds at least two tiles (and at most sixteen).  On such a
    board [has_moves] returns [True] exactly when one of the four
    directions would make [move] report [moved = true]: the game-over test
    of [play] is exact. *)
Theorem reachable_game_over_is_exact (b : Board R) :
  reachable b →
  (2 ≤ tile_count (grid b) ≤ 16)%Z ∧
  ∃ res,
    has_moves b = Some res ∧
    (res = true ↔
     ∃ d b' r, d ∈ directions ∧ move b d = Some (b', r) ∧ moved r = true).
Proof.
  intros Hreach. pose proof (reachable_two_tiles b Hreach) as Htwo.
  apply reachable_invariant in Hreach as [Hg _].
  pose proof (tile_count_bounds (grid b) Hg). split; [lia|].
  destruct (has_moves_spec b Hg) as (res&Hres&_). exists res.
  split; [done|]. destruct res.
  - split; [intros _|done]. apply some_move_when_not_over; [done..|lia].
  - split; [done|]. intros (d&b'&r&_&Hmove&Hr).
    rewrite (no_move_when_over b Hg Hres d) in Hmove.
    injection Hmove as <- <-. done.
Qed.

(** X6.  The constructor and [restart] leave exactly two tiles on the
    board, with score 0; the two tiles add up to 4, 6 or 8. *)
Theorem fresh_board_has_two_tiles :
  (∀ rng0 : R,
     ∃ b, Board_init rng0 = Some b ∧ score b = 0%Z ∧
          tile_count (grid b) = 2%Z ∧
          (tile_total (grid b) = 4 ∨ tile_total (grid b) = 6 ∨
           tile_total (grid b) = 8)%Z) ∧
  (∀ b0 : Board R,
     ∃ b, restart b0 = Some b ∧ score b = 0%Z ∧
          tile_count (grid b) = 2%Z ∧
          (tile_total (grid b) = 4 ∨ tile_total (grid b) = 6 ∨
           tile_total (grid b) = 8)%Z).
Proof.
  split; [apply init_two_tiles|].
  intros b0. rewrite restart_init. apply init_two_tiles.
Qed.

End TileCount.

(** X5, witness: the board built from seed 123, after a move up. *)
Lemma reachable_game_over_is_exact_witness :
  let b := mkBoard 217932077%Z
             [[0; 0; 2; 2]; [0; 0; 2; 0]; [0; 0; 0; 0]; [0; 0; 0; 0]]%Z 0%Z in
  (2 ≤ tile_count (grid b) ≤ 16)%Z ∧
  ∃ res,
    has_moves b = Some res ∧
    (res = true ↔
     ∃ d b' r, d ∈ directions ∧ move b d = Some (b', r) ∧ moved r = true).
Proof.
  intros b. apply (reachable_game_over_is_exact (R := Z) b).
  apply (reach_step
           (mkBoard 864299351%Z
              [[0; 0; 0; 0]; [0; 0; 0; 2]; [0; 0; 0; 0]; [0; 0; 2; 0]]%Z 0%Z)
           (Move "W")).
  - apply (reach_init (from_seed 123)). vm_compute. reflexivity.
  - vm_compute. reflexivity.
Defined.

(** ** X7: moves up and down are moves left and right on the transpose *)

Lemma wf_transpose (g : list (list Z)) : wf g → wf (transpose g).
Proof.
  intros (a0&a1&a2&a3&b0&b1&b2&b3&c0&c1&c2&c3&d0&d1&d2&d3&->)%wf_cells.
  apply wf_explicit.
Qed.

Lemma transpose_involutive (g : list (list Z)) :
  wf g → transpose (transpose g) = g.
Proof.
  intros (a0&a1&a2&a3&b0&b1&b2&b3&c0&c1&c2&c3&d0&d1&d2&d3&->)%wf_cells.
  reflexivity.
Qed.

Lemma transpose_cell (g : list (list Z)) (r c : nat) :
  wf g → cell (transpose g) r c = cell g c r.
Proof.
  intros Hg. destruct (decide (r < SIZE ∧ c < SIZE)) as [[Hr Hc]|Hout].
  - change (transpose g) with (lines "w" g).
    rewrite lines_cell; [reflexivity|done|in_directions|done..].
  - destruct (cell (transpose g) r c) as [x|] eqn:Hx.
    { apply cell_Some_lt in Hx; [|by apply wf_transpose]. tauto. }
    destruct (cell g c r) as [y|] eqn:Hy; [|done].
    apply cell_Some_lt in Hy; [|done]. tauto.
Qed.

(** X7.  On a well-formed grid, sliding up is sliding the transposed grid
    to the left and transposing back, and sliding down is sliding the
    transposed grid to the right and transposing back, with the same score
    gain.  Transposing swaps the two indices of every cell and is its own
    inverse. *)
Theorem vertical_moves_are_transposed (g : list (list Z)) :
  wf g →
  (∃ g' s, slide "a" (transpose g) = Some (g', s) ∧
           slide "w" g = Some (transpose g', s)) ∧
  (∃ g' s, slide "d" (transpose g) = Some (g', s) ∧
           slide "s" g = Some (transpose g', s)) ∧
  (∀ r c, cell (transpose g) r c = cell g c r) ∧
  transpose (transpose g) = g.
Proof.
  intros Hg. pose proof (wf_transpose g Hg) as Ht.
  split; [|split; [|split]].
  - rewrite !slide_lines by (done || in_directions).
    eexists _, _. split; reflexivity.
  - rewrite !slide_lines by (done || in_directions).
    eexists _, _. split; reflexivity.
  - intros r c. by apply transpose_cell.
  - by apply transpose_involutive.
Qed.

(** X7, witness: a grid with merges in its columns. *)
Lemma vertical_moves_are_transposed_witness :
  let g := [[2; 0; 4; 8]; [2; 4; 4; 0]; [0; 4; 2; 8]; [2; 0; 2; 0]]%Z in
  ∃ g' s, slide "a" (transpose g) = Some (g', s) ∧
          slide "w" g = Some (transpose g', s).
Proof.
  intros g. apply (proj1 (vertical_moves_are_transposed g (wf_explicit _ _ _ _ _ _ _ _ _ _ _ _ _ _ _ _))).
Defined.

(** ** X8: the direction in either case *)

Lemma lower_ascii_idempotent (a : ascii) :
  lower_ascii (lower_ascii a) = lower_ascii a.
Proof. destruct a as [[] [] [] [] [] [] [] []]; reflexivity. Qed.

Lemma lower_idempotent (s : string) : lower (lower s) = lower s.
Proof.
  induction s as [|a s IH]; [done|].
  cbn [lower]. by rewrite lower_ascii_idempotent, IH.
Qed.

Section Case.
Context {R : Type} `{RandomSource R}.

(** X8.  [move] does not see the case of the letters of its direction:
    a direction and its lower-case form give the same result, so [W], [A],
    [S] and [D] move as [w], [a], [s] and [d] do. *)
Theorem move_ignores_case (b : Board R) (d : string) :
  move b (lower d) = move b d.
Proof. unfold move. by rewrite lower_idempotent. Qed.

End Case.

(** * The text interface *)

(** ** Lengths of strings *)

Lemma length_append (s t : string) :
  String.length (s +:+ t) = String.length s + String.length t.
Proof.
  induction s as [|a s IH]; [done|].
  change (String.length (String a s +:+ t)) with (S (String.length (s +:+ t))).
  rewrite IH. reflexivity.
Qed.

Lemma repeat_str_length (s : string) (n : nat) :
  String.length (repeat_str s n) = n * String.length s.
Proof.
  induction n as [|n IH]; [done|].
  cbn [repeat_str]. rewrite length_append, IH. lia.
Qed.

Lemma land_one_le (n : nat) : Nat.land n 1 ≤ 1.
Proof.
  change 1 with (Nat.ones 1) at 1. rewrite Nat.land_ones.
  change (2 ^ 1) with 2. pose proof (Nat.mod_upper_bound n 2). lia.
Qed.

(** [center] pads to the width and never cuts. *)
Lemma center_length (s : string) (width : nat) :
  String.length (center s width) = Nat.max width (String.length s).
Proof.
  unfold center. destruct (decide (width ≤ String.length s)) as [Hle|Hgt]; [lia|].
  set (marg := width - String.length s).
  pose proof (land_one_le (Nat.land marg width)) as Hbit.
  assert (marg / 2 + Nat.land (Nat.land marg width) 1 ≤ marg) as Hleft.
  { destruct (decide (marg = 1)) as [->|Hne].
    - change (1 / 2) with 0. lia.
    - assert (2 ≤ marg) by (unfold marg in *; lia).
      pose proof (Nat.div_lt marg 2). lia. }
  rewrite !length_append, !repeat_str_length. cbn [String.length].
  unfold marg in *. lia.
Qed.

Lemma digits_length (fuel : nat) (n : Z) (acc : string) :
  String.length (digits fuel n acc) = digit_count fuel n + String.length acc.
Proof.
  revert n acc. induction fuel as [|fuel IH]; intros n acc; [done|].
  cbn [digits digit_count]. destruct (decide (n < 10)%Z); [done|].
  rewrite IH. cbn [String.length]. lia.
Qed.

Lemma digit_count_pos (fuel : nat) (n : Z) : 1 ≤ digit_count fuel n.
Proof. destruct fuel; cbn; [lia|]. destruct (decide (n < 10)%Z); lia. Qed.

Lemma digit_count_mono (f1 f2 : nat) (n m : Z) :
  (0 ≤ n ≤ m)%Z → (n ≤ Z.of_nat f1)%Z → (m ≤ Z.of_nat f2)%Z →
  digit_count f1 n ≤ digit_count f2 m.
Proof.
  revert f2 n m. induction f1 as [|f1 IH]; intros f2 n m Hnm Hn Hm.
  - apply digit_count_pos.
  - cbn [digit_count]. destruct (decide (n < 10)%Z) as [|Hn10];
      [apply digit_count_pos|].
    destruct f2 as [|f2]; [lia|]. cbn [digit_count].
    rewrite decide_False by lia. apply le_n_S, IH.
    + split; [apply Z.div_pos; lia|apply Z.div_le_mono; lia].
    + pose proof (Z.div_lt n 10). lia.
    + pose proof (Z.div_lt m 10). lia.
Qed.

Lemma str_length (z : Z) :
  (0 ≤ z)%Z → String.length (str z) = digit_count (Z.to_nat z) z.
Proof.
  intros Hz. unfold str. rewrite decide_False by lia.
  rewrite digits_length. cbn. lia.
Qed.

(** A larger number is not written shorter. *)
Lemma str_length_mono (v m : Z) :
  (0 ≤ v ≤ m)%Z → String.length (str v) ≤ String.length (str m).
Proof.
  intros Hvm. rewrite !str_length by lia. apply digit_count_mono; lia.
Qed.

(** ** X9: the plain rendering is aligned *)

Lemma render_cell_plain_length (w : nat) (v : Z) :
  (v = 0%Z ∨ String.length (str v) ≤ w) →
  String.length (render_cell false w v) = w.
Proof.
  intros Hv. unfold render_cell.
  assert (String.length (center (if decide (v = 0%Z) then "" else str v) w) = w)
    as Hc.
  { rewrite center_length. destruct (decide (v = 0%Z)); [cbn; lia|].
    destruct Hv; [done|lia]. }
  by destruct (dict_get FG v).
Qed.

Lemma row_text_length (w : nat) (c0 c1 c2 c3 : string) :
  String.length c0 = w → String.length c1 = w →
  String.length c2 = w → String.length c3 = w →
  String.length ("|" +:+ String.concat "|" [c0; c1; c2; c3] +:+ "|")
  = SIZE * w + SIZE + 1.
Proof.
  intros H0 H1 H2 H3. cbn [String.concat].
  rewrite !length_append, H0, H1, H2, H3. cbn [String.length]. unfold SIZE. lia.
Qed.

Lemma hbar_length (w : nat) :
  String.length
    ("+" +:+ String.concat "+" (replicate SIZE (repeat_str "-" w)) +:+ "+")
  = SIZE * w + SIZE + 1.
Proof.
  cbn [replicate SIZE String.concat].
  rewrite !length_append, !repeat_str_length. cbn [String.length].
  unfold SIZE. lia.
Qed.

Lemma render_rows_cells (use_color : bool) (w : nat)
    (a0 a1 a2 a3 b0 b1 b2 b3 c0 c1 c2 c3 d0 d1 d2 d3 : Z) :
  let g := [[a0; a1; a2; a3]; [b0; b1; b2; b3];
            [c0; c1; c2; c3]; [d0; d1; d2; d3]] in
  mapM (render_row use_color w g) (seq 0 SIZE) =
  Some ((λ row, "|" +:+ String.concat "|" (render_cell use_color w <$> row)
                    +:+ "|") <$> g).
Proof.
  intros g. unfold render_row.
  cbn [seq SIZE mapM mbind option_bind cell g lookup list_lookup fmap
       option_fmap option_map mret option_ret list_fmap].
  reflexivity.
Qed.

Lemma render_width_total (g : list (list Z)) :
  wf g → is_Some (render_width g).
Proof.
  intros (a0&a1&a2&a3&b0&b1&b2&b3&c0&c1&c2&c3&d0&d1&d2&d3&->)%wf_cells.
  unfold render_width.
  cbn [mapM max_list foldl mbind option_bind mret option_ret]. by eexists.
Qed.

Lemma foldl_max_ge (l : list Z) (x : Z) :
  (x ≤ foldl Z.max x l)%Z ∧ Forall (λ y, y ≤ foldl Z.max x l)%Z l.
Proof.
  revert x. induction l as [|y l IH]; intros x; [by split; [cbn; lia|]|].
  cbn [foldl]. destruct (IH (Z.max x y)) as [Hx Hl]. split; [lia|].
  constructor; [lia|done].
Qed.

Lemma max_list_ge (l : list Z) (m : Z) :
  max_list l = Some m → Forall (λ y, y ≤ m)%Z l.
Proof.
  destruct l as [|x l]; [done|]. intros [= <-].
  destruct (foldl_max_ge l x). by constructor.
Qed.

(** The cell width is at least 4 and fits the largest value: it fits
    every non-negative value on the grid. *)
Lemma render_width_fits (g : list (list Z)) (w r c : nat) (v : Z) :
  render_width g = Some w → cell g r c = Some v → (0 ≤ v)%Z →
  4 ≤ w ∧ String.length (str v) ≤ w.
Proof.
  unfold render_width, cell. intros Hw Hv Hpos.
  destruct (mapM max_list g) as [row_maxes|] eqn:Hrows; [|done].
  cbn [mbind option_bind] in Hw.
  destruct (max_list row_maxes) as [m|] eqn:Hm; [|done].
  injection Hw as <-. split; [lia|].
  destruct (g !! r) as [row|] eqn:Hrow; [|done]. cbn in Hv.
  apply mapM_Some in Hrows.
  destruct (Forall2_lookup_l _ _ _ _ _ Hrows Hrow) as (mr&Hmr&Hmax).
  apply max_list_ge in Hmax, Hm. rewrite Forall_lookup in Hmax, Hm.
  pose proof (Hmax c v Hv). pose proof (Hm r mr Hmr).
  pose proof (str_length_mono v m). lia.
Qed.

Lemma Forall_cell (P : Z → Prop) (g : list (list Z)) (r c : nat) (v : Z) :
  Forall (Forall P) g → cell g r c = Some v → P v.
Proof.
  intros Hg Hv. unfold cell in Hv.
  destruct (g !! r) as [row|] eqn:Hrow; [|done]. cbn in Hv.
  rewrite Forall_lookup in Hg. specialize (Hg r row Hrow).
  rewrite Forall_lookup in Hg. by apply (Hg c).
Qed.

Section RenderPlain.
Context {R : Type}.

(** X9.  On a well-formed grid of non-negative values [render], without
    colours, does not fail and returns nine lines joined by line feeds:
    the bar, then each row followed by the bar.  All nine lines have the
    same length, four cells of the cell width plus five separators, and
    the cell width is at least 4 and at least the number of digits of
    every value on the grid. *)
Theorem render_plain_is_aligned (b : Board R) :
  wf (grid b) → Forall (Forall (λ v, 0 ≤ v)%Z) (grid b) →
  ∃ w lines,
    render_width (grid b) = Some w ∧
    render_lines (grid b) false = Some lines ∧
    render b false = Some (String.concat LF lines) ∧
    4 ≤ w ∧
    (∀ r c v, cell (grid b) r c = Some v → String.length (str v) ≤ w) ∧
    length lines = 2 * SIZE + 1 ∧
    Forall (λ l, String.length l = SIZE * w + SIZE + 1) lines.
Proof.
  destruct b as [rng0 g sc]. unfold render. cbn [grid]. intros Hg Hpos.
  destruct (render_width_total g Hg) as [w Hw].
  assert (∀ r c v, cell g r c = Some v → String.length (str v) ≤ w) as Hfit.
  { intros r c v Hv.
    apply (render_width_fits g w r c v Hw Hv), (Forall_cell _ g r c v Hpos Hv). }
  assert (∀ r c v, cell g r c = Some v →
            String.length (render_cell false w v) = w) as Hlen.
  { intros r c v Hv. apply render_cell_plain_length. right. by apply (Hfit r c). }
  assert (4 ≤ w) as Hfour.
  { destruct (cell_wf g 0 0 Hg) as [v Hv]; [unfold SIZE; lia..|].
    apply (render_width_fits g w 0 0 v Hw Hv), (Forall_cell _ g 0 0 v Hpos Hv). }
  exists w. unfold render_lines. rewrite Hw. cbn [mbind option_bind].
  destruct (wf_cells g Hg)
    as (a0&a1&a2&a3&b0&b1&b2&b3&c0&c1&c2&c3&d0&d1&d2&d3&->).
  rewrite (render_rows_cells false w).
  cbn [mbind option_bind fmap option_fmap option_map list_fmap list_bind app].
  eexists. split; [reflexivity|]. split; [reflexivity|].
  split; [reflexivity|]. split; [done|]. split; [done|].
  split; [reflexivity|].
  repeat (apply Forall_cons; split); try apply Forall_nil;
    try apply hbar_length; try exact I.
  - apply row_text_length; [by apply (Hlen 0 0)|by apply (Hlen 0 1)
                           |by apply (Hlen 0 2)|by apply (Hlen 0 3)].
  - apply row_text_length; [by apply (Hlen 1 0)|by apply (Hlen 1 1)
                           |by apply (Hlen 1 2)|by apply (Hlen 1 3)].
  - apply row_text_length; [by apply (Hlen 2 0)|by apply (Hlen 2 1)
                           |by apply (Hlen 2 2)|by apply (Hlen 2 3)].
  - apply row_text_length; [by apply (Hlen 3 0)|by apply (Hlen 3 1)
                           |by apply (Hlen 3 2)|by apply (Hlen 3 3)].
Qed.

End RenderPlain.

(** X9, witness: a board with a five-digit tile. *)
Lemma render_plain_is_aligned_witness :
  let b := mkBoard (from_seed 0)
             [[2; 0; 16; 0]; [128; 0; 0; 0]; [0; 1024; 0; 4]; [0; 0; 0; 16384]]%Z
             0%Z in
  ∃ w lines,
    render_width (grid b) = Some w ∧
    render_lines (grid b) false = Some lines ∧
    render b false = Some (String.concat LF lines) ∧
    4 ≤ w ∧
    (∀ r c v, cell (grid b) r c = Some v → String.length (str v) ≤ w) ∧
    length lines = 2 * SIZE + 1 ∧
    Forall (λ l, String.length l = SIZE * w + SIZE + 1) lines.
Proof.
  intros b. apply (render_plain_is_aligned (R := Z) b).
  - apply wf_explicit.
  - unfold b. cbn [grid]. repeat constructor; lia.
Defined.

(** ** X10: colours do not change what is shown *)

Lemma append_assoc (s t u : string) : (s +:+ t) +:+ u = s +:+ (t +:+ u).
Proof.
  induction s as [|a s IH]; [done|].
  change (String a ((s +:+ t) +:+ u) = String a (s +:+ (t +:+ u))).
  by rewrite IH.
Qed.

Lemma append_nil_r (s : string) : s +:+ "" = s.
Proof.
  induction s as [|a s IH]; [done|].
  change (String a (s +:+ "") = String a s). by rewrite IH.
Qed.

Lemma plain_append (s t : string) : plain s → plain t → plain (s +:+ t).
Proof.
  intros Hs Ht. induction s as [|a s IH]; [done|].
  destruct Hs as [Ha Hs]. split; [done|]. by apply IH.
Qed.

Lemma plain_repeat (s : string) (n : nat) : plain s → plain (repeat_str s n).
Proof.
  intros Hs. induction n as [|n IH]; [done|].
  cbn [repeat_str]. by apply plain_append.
Qed.

Lemma plain_center (s : string) (w : nat) : plain s → plain (center s w).
Proof.
  intros Hs. unfold center. destruct (decide (w ≤ String.length s)); [done|].
  assert (plain " ") as Hsp by (split; [discriminate|done]).
  repeat apply plain_append; try done; by apply plain_repeat.
Qed.

Lemma digit_plain (n : Z) : digit (n mod 10) ≠ ascii_of_nat 27.
Proof.
  unfold digit. pose proof (Z.mod_pos_bound n 10).
  assert (Z.to_nat (n mod 10) < 10) as Hlt by lia.
  destruct (Z.to_nat (n mod 10)) as [|[|[|[|[|[|[|[|[|[|k]]]]]]]]]];
    [discriminate..|lia].
Qed.

Lemma plain_digits (fuel : nat) (n : Z) (acc : string) :
  plain acc → plain (digits fuel n acc).
Proof.
  revert n acc. induction fuel as [|fuel IH]; intros n acc Hacc.
  - split; [apply digit_plain|done].
  - cbn [digits]. destruct (decide (n < 10)%Z).
    + split; [apply digit_plain|done].
    + apply IH. split; [apply digit_plain|done].
Qed.

Lemma plain_str (z : Z) : plain (str z).
Proof.
  unfold str. destruct (decide (z < 0)%Z).
  - split; [discriminate|]. by apply plain_digits.
  - by apply plain_digits.
Qed.

Lemma shows_as_plain (s : string) : plain s → shows_as s s.
Proof.
  intros Hs t. induction s as [|a s IH]; [done|].
  destruct Hs as [Ha Hs].
  change (strip false (String a (s +:+ t)) = String a (s +:+ strip false t)).
  cbn [strip]. rewrite (proj2 (Ascii.eqb_neq _ _) Ha). by rewrite IH.
Qed.

Lemma shows_as_append (c1 p1 c2 p2 : string) :
  shows_as c1 p1 → shows_as c2 p2 → shows_as (c1 +:+ c2) (p1 +:+ p2).
Proof. intros H1 H2 t. by rewrite !append_assoc, H1, H2. Qed.

Lemma shows_as_erase (c p : string) : shows_as c p → erase c = p.
Proof.
  intros H. unfold erase. rewrite <- (append_nil_r c), H. apply append_nil_r.
Qed.

(** A colour of [FG] and the reset sequence show as nothing. *)
Lemma shows_as_colour (v : Z) (colour : string) :
  dict_get FG v = Some colour → shows_as colour "".
Proof.
  unfold FG, dict_get. intros Hget t.
  repeat (case_decide; [injection Hget as <-; reflexivity|]). done.
Qed.

Lemma shows_as_reset : shows_as RESET "".
Proof. intros t. reflexivity. Qed.

Lemma shows_as_cell (w : nat) (v : Z) :
  shows_as (render_cell true w v) (render_cell false w v).
Proof.
  unfold render_cell.
  assert (plain (center (if decide (v = 0%Z) then "" else str v) w)) as Hp.
  { apply plain_center. destruct (decide (v = 0%Z)); [done|apply plain_str]. }
  destruct (dict_get FG v) as [colour|] eqn:Hget; [|by apply shows_as_plain].
  cbn [andb]. destruct (negb _); [|by apply shows_as_plain].
  apply (shows_as_append colour "").
  { by eapply shows_as_colour. }
  intros t. rewrite append_assoc, (shows_as_plain _ Hp).
  by rewrite shows_as_reset.
Qed.

Lemma shows_as_concat (sep : string) (cs ps : list string) :
  plain sep → Forall2 shows_as cs ps →
  shows_as (String.concat sep cs) (String.concat sep ps).
Proof.
  intros Hsep. induction 1 as [|c p cs ps Hcp Hrest IH].
  - by apply shows_as_plain.
  - destruct Hrest as [|c' p' cs' ps' Hc' Hrest'].
    + exact Hcp.
    + change (shows_as (c +:+ sep +:+ String.concat sep (c' :: cs'))
                (p +:+ sep +:+ String.concat sep (p' :: ps'))).
      apply shows_as_append; [done|].
      apply shows_as_append; [by apply shows_as_plain|done].
Qed.

Lemma shows_as_row (w : nat) (row : list Z) :
  shows_as ("|" +:+ String.concat "|" (render_cell true w <$> row) +:+ "|")
           ("|" +:+ String.concat "|" (render_cell false w <$> row) +:+ "|").
Proof.
  assert (plain "|") as Hbar by (split; [discriminate|done]).
  apply shows_as_append; [by apply shows_as_plain|].
  apply shows_as_append; [|by apply shows_as_plain].
  apply shows_as_concat; [done|]. apply Forall2_fmap, Forall_Forall2_diag.
  apply Forall_forall. intros v _. apply shows_as_cell.
Qed.

Lemma plain_hbar (w : nat) :
  plain ("+" +:+ String.concat "+" (replicate SIZE (repeat_str "-" w)) +:+ "+").
Proof.
  assert (plain "+") as Hplus by (split; [discriminate|done]).
  assert (plain (repeat_str "-" w)) as Hdash.
  { apply plain_repeat. split; [discriminate|done]. }
  cbn [replicate SIZE String.concat]. by repeat apply plain_append.
Qed.

Lemma plain_concat (sep : string) (ls : list string) :
  plain sep → Forall plain ls → plain (String.concat sep ls).
Proof.
  intros Hsep. induction 1 as [|l ls Hl Hls IH]; [done|].
  destruct Hls as [|l' ls' Hl' Hls']; [done|].
  change (plain (l +:+ sep +:+ String.concat sep (l' :: ls'))).
  by repeat apply plain_append.
Qed.

Lemma plain_cell (w : nat) (v : Z) : plain (render_cell false w v).
Proof.
  unfold render_cell.
  assert (plain (center (if decide (v = 0%Z) then "" else str v) w)) as Hp.
  { apply plain_center. destruct (decide (v = 0%Z)); [done|apply plain_str]. }
  by destruct (dict_get FG v).
Qed.

Lemma plain_row (w : nat) (row : list Z) :
  plain ("|" +:+ String.concat "|" (render_cell false w <$> row) +:+ "|").
Proof.
  assert (plain "|") as Hbar by (split; [discriminate|done]).
  repeat apply plain_append; try done.
  apply plain_concat; [done|]. apply Forall_fmap, Forall_forall.
  intros v _. apply plain_cell.
Qed.

Section RenderColour.
Context {R : Type}.

(** X10.  On a well-formed grid [render] succeeds with and without
    colours, and the coloured text, read without its styling sequences
    (each from the escape character to the closing [m]), is the plain
    text: colours are laid over the padded cells and move nothing. *)
Theorem render_colour_is_overlay (b : Board R) :
  wf (grid b) →
  ∃ coloured text,
    render b true = Some coloured ∧
    render b false = Some text ∧
    erase coloured = text ∧
    plain text.
Proof.
  destruct b as [rng0 g sc]. unfold render. cbn [grid]. intros Hg.
  destruct (render_width_total g Hg) as [w Hw].
  unfold render_lines. rewrite Hw. cbn [mbind option_bind].
  destruct (wf_cells g Hg)
    as (a0&a1&a2&a3&b0&b1&b2&b3&c0&c1&c2&c3&d0&d1&d2&d3&->).
  rewrite !render_rows_cells.
  cbn [mbind option_bind fmap option_fmap option_map list_fmap list_bind app].
  eexists _, _. split; [reflexivity|]. split; [reflexivity|].
  assert (plain LF) as Hlf by (split; [discriminate|done]).
  pose proof (plain_hbar w) as Hbar.
  split.
  - apply shows_as_erase, shows_as_concat; [done|].
    repeat (apply Forall2_cons; split);
      first [exact (shows_as_plain _ Hbar) | exact (shows_as_row w [_; _; _; _])
            | apply Forall2_nil_2].
  - apply plain_concat; [done|].
    repeat (apply Forall_cons; split);
      first [exact Hbar | exact (plain_row w [_; _; _; _]) | by apply Forall_nil].
Qed.

End RenderColour.

(** X10, witness: a board with coloured and uncoloured tiles. *)
Lemma render_colour_is_overlay_witness :
  let b := mkBoard (from_seed 0)
             [[2; 0; 16; 0]; [128; 0; 0; 0]; [0; 1024; 0; 4]; [0; 0; 0; 4096]]%Z
             0%Z in
  ∃ coloured text,
    render b true = Some coloured ∧
    render b false = Some text ∧
    erase coloured = text ∧
    plain text.
Proof.
  intros b. apply (render_colour_is_overlay (R := Z) b). apply wf_explicit.
Defined.

(** ** The command line: [read_command] *)

Lemma lower_ascii_q (a : ascii) :
  lower_ascii a = "q"%char → a = "q"%char ∨ a = "Q"%char.
Proof.
  destruct a as [[] [] [] [] [] [] [] []]; vm_compute; intros Heq;
    first [discriminate | by left | by right].
Qed.

Lemma lower_char (a : ascii) : lower (String a "") = String (lower_ascii a) "".
Proof. reflexivity. Qed.

(** The value of [ARROWS.get(code, "")]. *)
Lemma arrows_get (code : string) :
  default "" (dict_get ARROWS code) ∈ [""; "w"; "s"; "d"; "a"].
Proof.
  unfold ARROWS. cbn [dict_get].
  repeat (case_decide; [cbn [default]; rewrite !elem_of_cons; auto 8|]).
  cbn [default]. rewrite !elem_of_cons; auto.
Qed.

Lemma command_shape (cmd : string) :
  cmd ∈ [""; "w"; "s"; "d"; "a"] →
  String.length cmd ≤ 1 ∧ lower cmd = cmd ∧ cmd ≠ "q".
Proof.
  rewrite !elem_of_cons, elem_of_nil.
  intros [->|[->|[->|[->|[->|[]]]]]]; (split; [cbn; lia|by split]).
Qed.

(** The text of an ASCII character is its one byte, and only ASCII
    characters have a text of one byte. *)
Lemma utf8_ascii (c : N) :
  (c < 128)%N → utf8 c = String (ascii_of_N c) "" ∧ ascii_text (utf8 c).
Proof.
  intros Hc. unfold utf8. rewrite decide_True by done. split; [done|].
  split; [|done]. unfold nat_of_ascii. rewrite N_ascii_embedding by lia. lia.
Qed.

Lemma utf8_one_byte (c : N) (a : ascii) :
  utf8 c = String a "" → (c < 128)%N ∧ c = N_of_ascii a.
Proof.
  unfold utf8. repeat case_decide; intros [= <-]. split; [done|].
  by rewrite N_ascii_embedding by lia.
Qed.

Section ReadCommandFacts.
Context `{Unicode}.

(** The lower case of the text of one key: a letter that is a command
    comes from that letter only, in either case. *)
Lemma lower_key (c : N) :
  ((c < 128)%N ∧
   str_lower (utf8 c) = String (lower_ascii (ascii_of_N c)) "") ∨
  ((128 ≤ c)%N ∧ str_lower (utf8 c) ∉ ["w"; "a"; "s"; "d"; "r"; "q"]).
Proof.
  destruct (decide (c < 128)%N) as [Hc|Hc].
  - left. split; [done|]. destruct (utf8_ascii c Hc) as [Hone Hascii].
    by rewrite str_lower_ascii, Hone.
  - right. split; [lia|]. apply str_lower_wide. lia.
Qed.

Lemma lower_key_quit (c : N) :
  str_lower (utf8 c) = "q" → c = 113%N ∨ c = 81%N.
Proof.
  destruct (lower_key c) as [[Hc Hlow]|[Hc Hout]].
  - rewrite Hlow. intros [= Hq]. apply lower_ascii_q in Hq.
    assert (N_of_ascii (ascii_of_N c) = c) as Hback
      by (apply N_ascii_embedding; lia).
    destruct Hq as [Hq|Hq]; rewrite Hq in Hback; vm_compute in Hback; auto.
  - intros Hq. rewrite Hq in Hout. exfalso. apply Hout.
    rewrite !elem_of_cons. auto 8.
Qed.

Lemma read_command_harmless (inp : list key) :
  Forall harmless inp →
  ∃ cmd inp', read_command inp = (Some cmd, inp') ∧ cmd ≠ "q" ∧
              Forall harmless inp'.
Proof.
  intros Hinp. unfold read_command.
  destruct Hinp as [|[a|] inp1 Ha Hinp1]; cbn [stdin_read]; [| |done].
  { case_decide; [done|]. exists (str_lower ""), []. split; [done|].
    split; [|done]. by rewrite str_lower_ascii. }
  case_decide.
  - destruct Hinp1 as [|[c|] inp2 Hc Hinp2]; cbn [stdin_read]; [| |done].
    { case_decide; [done|]. by exists "", []. }
    case_decide; [|by exists "", inp2].
    destruct Hinp2 as [|[e|] inp3 He Hinp3]; cbn [stdin_read]; [| |done].
    + eexists _, _. split; [done|]. split; [|done].
      apply command_shape, arrows_get.
    + eexists _, _. split; [done|]. split; [|done].
      apply command_shape, arrows_get.
  - eexists _, _. split; [done|]. split; [|done].
    intros Hq. apply lower_key_quit in Hq. destruct Ha, Hq; congruence.
Qed.

(** X11.  [read_command] takes at most three keys from the input, and
    none that it does not use.  It returns the empty string or one ASCII
    character that is not an upper-case letter, unless the first key is a
    character outside ASCII: then it returns what [str.lower] makes of
    that character, which need not be one character and is none of the
    letters [w], [a], [s], [d], [r] and [q].  Ctrl-C as the first key
    reads as [q]; the interrupt leaves [read_command] only when Ctrl-C
    comes second or third in an escape sequence. *)
Theorem read_command_returns_a_command (inp : list key) :
  match read_command inp with
  | (Some cmd, inp') =>
      ((String.length cmd ≤ 1 ∧ lower cmd = cmd) ∨
       (∃ c, (128 ≤ c)%N ∧ inp = Key c :: inp' ∧
             cmd = str_lower (utf8 c) ∧
             cmd ∉ ["w"; "a"; "s"; "d"; "r"; "q"])) ∧
      (∃ used, inp = used ++ inp' ∧ length used ≤ 3) ∧
      (∀ rest, inp = CtrlC :: rest → cmd = "q" ∧ inp' = rest)
  | (None, inp') =>
      inp = Key 27 :: CtrlC :: inp' ∨
      inp = Key 27 :: Key 91 :: CtrlC :: inp'
  end.
Proof.
  unfold read_command.
  destruct inp as [|[a|] inp1]; cbn [stdin_read].
  - case_decide; [done|]. rewrite str_lower_ascii by done.
    split_and!; [left; split; [cbn; lia|done]| |done].
    exists []. split; [done|cbn; lia].
  - case_decide as Ha.
    + apply utf8_one_byte in Ha as [_ ->]. change (N_of_ascii _) with 27%N.
      destruct inp1 as [|[c|] inp2]; cbn [stdin_read].
      * case_decide; [done|].
        split_and!; [left; split; [cbn; lia|done]| |done].
        exists [Key 27]. split; [done|cbn; lia].
      * case_decide as Hc.
        -- apply utf8_one_byte in Hc as [_ ->].
           change (N_of_ascii _) with 91%N.
           destruct inp2 as [|[e|] inp3]; cbn [stdin_read].
           ++ destruct (command_shape _ (arrows_get "")) as (?&?&?).
              split_and!; [by left| |done].
              exists [Key 27; Key 91]. split; [done|cbn; lia].
           ++ destruct (command_shape _ (arrows_get (utf8 e))) as (?&?&?).
              split_and!; [by left| |done].
              exists [Key 27; Key 91; Key e]. split; [done|cbn; lia].
           ++ by right.
        -- split_and!; [left; split; [cbn; lia|done]| |done].
           exists [Key 27; Key c]. split; [done|cbn; lia].
      * by left.
    + split_and!; [| |done].
      * destruct (lower_key a) as [[Hlt Hlow]|[Hge Hout]].
        -- left. rewrite Hlow. split; [cbn; lia|].
           by rewrite !lower_char, lower_ascii_idempotent.
        -- right. by exists a.
      * exists [Key a]. split; [done|cbn; lia].
  - split_and!; [left; split; [cbn; lia|done]| |by intros rest [= ->]].
    exists [CtrlC]. split; [done|cbn; lia].
Qed.

End ReadCommandFacts.

(** ** The command line: [play] *)

Section RenderTotal.
Context {R : Type}.

Lemma render_total (b : Board R) (use_color : bool) :
  wf (grid b) → is_Some (render b use_color).
Proof.
  destruct b as [rng0 g sc]. unfold render. cbn [grid]. intros Hg.
  destruct (render_width_total g Hg) as [w Hw].
  unfold render_lines. rewrite Hw. cbn [mbind option_bind].
  destruct (wf_cells g Hg)
    as (a0&a1&a2&a3&b0&b1&b2&b3&c0&c1&c2&c3&d0&d1&d2&d3&->).
  rewrite render_rows_cells. by eexists.
Qed.

Lemma render_plain (b : Board R) (text : string) :
  wf (grid b) → render b false = Some text → plain text.
Proof.
  destruct b as [rng0 g sc]. unfold render. cbn [grid]. intros Hg.
  destruct (render_width_total g Hg) as [w Hw].
  unfold render_lines. rewrite Hw. cbn [mbind option_bind].
  destruct (wf_cells g Hg)
    as (a0&a1&a2&a3&b0&b1&b2&b3&c0&c1&c2&c3&d0&d1&d2&d3&->).
  rewrite render_rows_cells.
  cbn [mbind option_bind fmap option_fmap option_map list_fmap list_bind app].
  set (joined := String.concat LF _). intros [= <-]. unfold joined.
  assert (plain LF) as Hlf by (split; [discriminate|done]).
  pose proof (plain_hbar w) as Hbar.
  apply plain_concat; [done|].
  repeat (apply Forall_cons; split);
    first [exact Hbar | exact (plain_row w [_; _; _; _]) | by apply Forall_nil].
Qed.

End RenderTotal.

Lemma quit_is_no_direction (cmd : string) : cmd ∈ directions → cmd ≠ "q" ∧ cmd ≠ "r".
Proof.
  unfold directions. rewrite !elem_of_cons, elem_of_nil.
  by intros [->|[->|[->|[->|[]]]]].
Qed.

Section PlayLoop.
Context {R : Type} `{RandomSource R} `{Unicode}.

(** How a turn ends depends on the command alone, not on whether the
    game is over. *)
Lemma play_turn_follow (seed : option Z) (use_color : bool)
    (b : Board R) (inp : list key) :
  invariant b → (play_turn seed use_color b inp).2 = follow 1 b inp.
Proof.
  intros [Hwf Htiles]. unfold play_turn. cbn [follow].
  destruct (render_total b use_color Hwf) as [text ->].
  destruct (has_moves_spec b Hwf) as (res&Hres&_). rewrite Hres.
  destruct (read_command inp) as [[cmd|] inp'];
    [|by destruct res].
  unfold call_of.
  change (cmd ∈ ["w"; "a"; "s"; "d"]) with (cmd ∈ directions).
  destruct res.
  - destruct (decide (cmd ∈ directions)) as [Hd|Hd].
    + destruct (quit_is_no_direction cmd Hd) as [Hq Hr].
      rewrite (decide_False (P := cmd = "q")) by done.
      cbn [step]. by destruct (move b cmd).
    + destruct (decide (cmd = "r")) as [->|Hr].
      * rewrite (decide_False (P := "r" = "q")) by done.
        cbn [step]. by destruct (restart b).
      * by destruct (decide (cmd = "q")).
  - destruct (decide (cmd = "r")) as [->|Hr].
    + rewrite (decide_False (P := "r" = "q")) by done.
      rewrite (decide_False (P := "r" ∈ directions)).
      2:{ by intros [_ ?]%quit_is_no_direction. }
      cbn [step]. by destruct (restart b).
    + destruct (decide (cmd = "q")) as [->|Hq]; [done|].
      destruct (decide (cmd ∈ directions)) as [Hd|Hd]; [|done].
      cbn [step]. by rewrite (no_move_when_over b Hwf Hres cmd).
Qed.

Lemma follow_one (b : Board R) (inp : list key) :
  invariant b →
  match follow 1 b inp with
  | Continue b' inp' => invariant b'
  | Failed => False
  | _ => True
  end.
Proof.
  intros Hb. cbn [follow].
  destruct (read_command inp) as [[cmd|] inp']; [|done].
  destruct (decide (cmd = "q")); [done|].
  destruct (call_of cmd) as [c|]; [|done].
  by destruct (step_invariant b c Hb) as (b'&->&Hb').
Qed.

Lemma follow_succ (n : nat) (b : Board R) (inp : list key) :
  follow (S n) b inp =
  match follow 1 b inp with
  | Continue b' inp' => follow n b' inp'
  | stop => stop
  end.
Proof.
  cbn [follow]. destruct (read_command inp) as [[cmd|] inp']; [|done].
  destruct (decide (cmd = "q")); [done|].
  destruct (call_of cmd) as [c|]; [|done]. by destruct (step b c).
Qed.

Lemma play_loop_follow (n : nat) (seed : option Z) (use_color : bool)
    (b : Board R) (inp : list key) :
  invariant b → (play_loop n seed use_color b inp).2 = follow n b inp.
Proof.
  revert b inp. induction n as [|n IH]; intros b inp Hb; [done|].
  rewrite follow_succ. cbn [play_loop].
  pose proof (play_turn_follow seed use_color b inp Hb) as Hturn.
  pose proof (follow_one b inp Hb) as Hone.
  destruct (play_turn seed use_color b inp) as [out p]. cbn [snd] in Hturn.
  rewrite <- Hturn in *. destruct p as [b' inp'| | |]; [|done..].
  cbn [snd]. by apply IH.
Qed.

Lemma follow_safe (n : nat) (b : Board R) (inp : list key) :
  invariant b → follow n b inp ≠ Failed.
Proof.
  revert b inp. induction n as [|n IH]; intros b inp Hb; [done|].
  rewrite follow_succ. pose proof (follow_one b inp Hb) as Hone.
  destruct (follow 1 b inp) as [b' inp'| | |]; [by apply IH|done..].
Qed.

Lemma follow_harmless (n : nat) (b : Board R) (inp : list key) :
  invariant b → Forall harmless inp →
  ∃ b' inp', follow n b inp = Continue b' inp' ∧ invariant b' ∧
             Forall harmless inp'.
Proof.
  revert b inp. induction n as [|n IH]; intros b inp Hb Hinp.
  { by exists b, inp. }
  cbn [follow].
  destruct (read_command_harmless inp Hinp) as (cmd&inp'&->&Hq&Hinp').
  rewrite (decide_False (P := cmd = "q")) by done.
  destruct (call_of cmd) as [c|]; [|by apply IH].
  destruct (step_invariant b c Hb) as (b'&->&Hb'). by apply IH.
Qed.

Lemma play_starts (entropy : Z) (seed : option Z) :
  ∃ b : Board R,
    Board_init (from_seed (default entropy seed)) = Some b ∧ invariant b.
Proof.
  destruct (init_total (from_seed (default entropy seed)))
    as (b&Hb&Hwf&Htiles&_).
  by exists b.
Qed.

(** X12.  Where [play] stands after any number of turns is where the
    plain loop stands that reads a command, stops at [q] and otherwise
    makes the call the command stands for on the board built from the
    seed: the check for the end of the game, the colours and the seed
    line have no part in it.  A direction typed when the game is over is
    not passed to [move], which would have left the board as it is. *)
Theorem play_follows_commands (n : nat) (entropy : Z) (seed : option Z)
    (use_color : bool) (inp : list key) :
  ∃ b : Board R,
    Board_init (from_seed (default entropy seed)) = Some b ∧
    (play n entropy seed use_color inp).2 = follow n b inp.
Proof.
  destruct (play_starts entropy seed) as (b&Hb&Hinv).
  exists b. split; [done|]. unfold play. rewrite Hb.
  by apply play_loop_follow.
Qed.

(** X13.  No call that [play] makes on its board fails, on any input:
    [play] is left by [q], by Ctrl-C, or not at all. *)
Theorem play_never_fails (n : nat) (entropy : Z) (seed : option Z)
    (use_color : bool) (inp : list key) :
  (play (R := R) n entropy seed use_color inp).2 ≠ Failed.
Proof.
  destruct (play_starts entropy seed) as (b&Hb&Hinv).
  unfold play. rewrite Hb, play_loop_follow by done. by apply follow_safe.
Qed.

(** X14.  On an input without Ctrl-C, [q] and [Q], [play] does not
    return, however many turns it is given: when the input is used up
    [read_command] returns the empty string for ever, and the loop goes
    on. *)
Theorem play_needs_quit (n : nat) (entropy : Z) (seed : option Z)
    (use_color : bool) (inp : list key) :
  Forall harmless inp →
  ∃ (b : Board R) inp',
    (play n entropy seed use_color inp).2 = Continue b inp' ∧
    invariant b ∧ Forall harmless inp'.
Proof.
  intros Hinp. destruct (play_starts entropy seed) as (b&Hb&Hinv).
  unfold play. rewrite Hb, play_loop_follow by done.
  by apply follow_harmless.
Qed.

(** What a turn prints does not depend on the command it reads. *)
Lemma play_turn_output (seed : option Z) (use_color : bool)
    (b : Board R) (inp : list key) :
  wf (grid b) →
  ∃ text res,
    render b use_color = Some text ∧ has_moves b = Some res ∧
    (play_turn seed use_color b inp).1 =
      [clear_screen; print (title use_color); print controls]
      ++ match seed with Some s => [print (seed_line s)] | None => [] end
      ++ [print ""; print text; print (score_line (score b))]
      ++ (if res : bool then [] else [print (game_over_text use_color)]).
Proof.
  intros Hwf. unfold play_turn.
  destruct (render_total b use_color Hwf) as [text ->].
  destruct (has_moves_spec b Hwf) as (res&->&_).
  exists text, res. split; [done|]. split; [done|].
  destruct res, (read_command inp) as [[cmd|] inp'];
    repeat case_decide;
    try destruct (move b cmd); try destruct (restart b);
    cbn [fst]; by rewrite <- ?(assoc_L (++)), ?app_nil_r.
Qed.

(** X15.  Without colours, a turn of [play] prints one styling sequence
    at most: when the game is over, the message that says so starts with
    [BOLD], whatever [use_color] is.  Every other line is free of the
    escape character. *)
Theorem no_color_keeps_one_sequence (seed : option Z) (b : Board R)
    (inp : list key) :
  wf (grid b) →
  ∃ res,
    has_moves b = Some res ∧
    Forall (λ o, ∀ s, o = print s →
                 plain s ∨ (res = false ∧ s = game_over_text false))
           (play_turn seed false b inp).1 ∧
    (res = false → print (game_over_text false) ∈ (play_turn seed false b inp).1) ∧
    ¬ plain (game_over_text false).
Proof.
  intros Hwf.
  destruct (play_turn_output seed false b inp Hwf) as (text&res&Htext&Hres&->).
  pose proof (render_plain b text Hwf Htext) as Hplain.
  exists res. split; [done|].
  assert (plain (title false)) as Htitle
    by (vm_compute; repeat split; discriminate).
  assert (plain controls) as Hcontrols
    by (vm_compute; repeat split; discriminate).
  assert (∀ s, plain (seed_line s)) as Hseed.
  { intros s. apply plain_append; [|apply plain_str].
    vm_compute; repeat split; discriminate. }
  assert (plain (score_line (score b))) as Hscore.
  { apply plain_append; [|apply plain_str].
    vm_compute; repeat split; discriminate. }
  split_and!.
  - rewrite !Forall_app. split_and!.
    + repeat (apply Forall_cons; split); [..|by apply Forall_nil];
        intros s [= <-] || intros s [=]; by left.
    + destruct seed as [s0|]; [|by apply Forall_nil].
      apply Forall_cons; split; [|by apply Forall_nil].
      intros s [= <-]. by left.
    + repeat (apply Forall_cons; split); [..|by apply Forall_nil];
        intros s [= <-]; by left.
    + destruct res; [by apply Forall_nil|].
      apply Forall_cons; split; [|by apply Forall_nil].
      intros s [= <-]. by right.
  - intros ->. rewrite !elem_of_app, !elem_of_cons. do 3 right. by left.
  - intros [Hesc _]. by apply Hesc.
Qed.

End PlayLoop.

(** X14, witness: the keys [w] and [é] and an arrow, then the end of the
    input. *)
Lemma play_needs_quit_witness :
  let inp := [Key 119; Key 233; Key 27; Key 91; Key 65]%N in
  ∃ (b : Board Z) inp',
    (play 7 0 (Some 42%Z) true inp).2 = Continue b inp' ∧
    invariant b ∧ Forall harmless inp'.
Proof.
  intros inp. apply (play_needs_quit (R := Z) 7 0 (Some 42%Z) true inp).
  unfold inp. repeat (apply Forall_cons; split; [vm_compute; split; discriminate|]).
  apply Forall_nil. exact I.
Defined.

(** X15, witness: a board that is over. *)
Lemma no_color_keeps_one_sequence_witness :
  let b := mkBoard (from_seed 0)
             [[2; 4; 2; 4]; [4; 2; 4; 2]; [2; 4; 2; 4]; [4; 2; 4; 2]]%Z 20%Z in
  ∃ res,
    has_moves b = Some res ∧
    Forall (λ o, ∀ s, o = print s →
                 plain s ∨ (res = false ∧ s = game_over_text false))
           (play_turn None false b [Key 114%N]).1 ∧
    (res = false →
     print (game_over_text false) ∈ (play_turn None false b [Key 114%N]).1) ∧
    ¬ plain (game_over_text false).
Proof.
  intros b.
  apply (no_color_keeps_one_sequence (R := Z) None b [Key 114%N]).
  apply wf_explicit.
Defined.
